(** * cmn: validated flag sets and typed results

    A shallow embedding of [include/common/types.hpp],
    [include/common/result.hpp] and [include/common/bits.hpp], followed by
    the properties of the two components that the specification states.

    Conventions of the embedding:
    - a fixed-width unsigned integer is a [Z] in [[0, 2^width)], every
      conversion to such a type is written out as [wrap];
    - [usize] values (bit positions, counters) are [Z]: they never exceed
      64 here, so their wrap-around is never reached;
    - [str] ([const char*]) is a [string] holding the bytes the pointer
      points at; what C reads through it stops at the first NUL ([c_str]);
    - a call that can leave by another door than [return] yields an
      [Exec]: a returned value, an escaping C++ exception, [std::abort()],
      or undefined behaviour. *)

From Stdlib Require Import ZArith Lia List Bool String Ascii Sorted.
From coqutil Require Import Z.bitblast.
Import ListNotations.

Local Open Scope string_scope.
Local Open Scope list_scope.
Local Open Scope Z_scope.

(* ===================================================================== *)
(** ** types.hpp *)
(* ===================================================================== *)

Module Types.

(** The unsigned fixed-width aliases [u8], [u16], [u32], [u64]. *)
Inductive UInt : Type := u8 | u16 | u32 | u64.

Definition width (t : UInt) : Z :=
  match t with u8 => 8 | u16 => 16 | u32 => 32 | u64 => 64 end.

(** [static_cast< uN >( z )]. *)
Definition wrap (t : UInt) (z : Z) : Z := z mod 2 ^ width t.

(** [using str = const char*;] *)
Definition str : Type := string.

Definition NUL : ascii := Ascii.zero.

(** The characters a C routine reads through a [str]. *)
Fixpoint c_str (s : string) : string :=
  match s with
  | EmptyString => EmptyString
  | String c rest => if Ascii.eqb c NUL then EmptyString else String c (c_str rest)
  end.

Definition strlen (s : str) : nat := String.length (c_str s).

(** [int] is 32 bits wide; conversion of a value to [int]. *)
Definition INT_BITS : Z := 32.
Definition INT_MAX : Z := 2 ^ (INT_BITS - 1) - 1.
Definition to_int (z : Z) : Z :=
  (z + 2 ^ (INT_BITS - 1)) mod 2 ^ INT_BITS - 2 ^ (INT_BITS - 1).

End Types.

(* ===================================================================== *)
(** ** Outcomes of a call *)
(* ===================================================================== *)

Inductive Exception : Type :=
| out_of_range     (* std::out_of_range, from std::bitset *)
| overflow_error.  (* std::overflow_error *)

Inductive Exec (A : Type) : Type :=
| Returned (a : A)
| Thrown (ex : Exception)
| Aborted
| Undefined.

Arguments Returned {A} a.
Arguments Thrown {A} ex.
Arguments Aborted {A}.
Arguments Undefined {A}.

Definition bind {A B : Type} (m : Exec A) (k : A -> Exec B) : Exec B :=
  match m with
  | Returned a => k a
  | Thrown ex => Thrown ex
  | Aborted => Aborted
  | Undefined => Undefined
  end.

Notation "x <- m ;; k" := (bind m (fun x => k))
  (at level 61, m at next level, right associativity).

(* ===================================================================== *)
(** ** result.hpp *)
(* ===================================================================== *)

Module Result.
Import Types.

(** [enum struct ErrorType : u8], in declaration order. *)
Inductive ErrorType : Type :=
| ARITHMETIC_ERROR
| FLOATING_POINT_ERROR
| OVERFLOW_ERROR
| ZERO_DIVISION_ERROR
| ASSERTION_ERROR
| ATTRIBUTE_ERROR
| INDEX_ERROR
| KEY_ERROR
| OS_ERROR
| TIMEOUT_ERROR
| RUNTIME_ERROR
| NOT_IMPLEMENTED_ERROR
| SYNTAX_ERROR
| SYSTEM_ERROR
| TYPE_ERROR
| VALUE_ERROR
| GENERIC_ERROR.

(** The enumerators, in declaration order. *)
Definition all_kinds : list ErrorType :=
  [ ARITHMETIC_ERROR; FLOATING_POINT_ERROR; OVERFLOW_ERROR; ZERO_DIVISION_ERROR;
    ASSERTION_ERROR; ATTRIBUTE_ERROR; INDEX_ERROR; KEY_ERROR; OS_ERROR;
    TIMEOUT_ERROR; RUNTIME_ERROR; NOT_IMPLEMENTED_ERROR; SYNTAX_ERROR;
    SYSTEM_ERROR; TYPE_ERROR; VALUE_ERROR; GENERIC_ERROR ].

Record Error : Type := mkError { message : str; type : ErrorType }.

(** [Error()] and [Error( msg )]. *)
Definition Error_default : Error := mkError "" GENERIC_ERROR.
Definition Error_of_msg (msg : str) : Error := mkError msg GENERIC_ERROR.

(** [static constexpr auto toStr( ErrorType typ ) -> str].  The
    [default: std::unreachable()] arm is not reached by an enumerator. *)
Definition toStr (typ : ErrorType) : str :=
  match typ with
  | ARITHMETIC_ERROR => "ArithmeticError"
  | FLOATING_POINT_ERROR => "FloatingPointError"
  | OVERFLOW_ERROR => "OverflowError"
  | ZERO_DIVISION_ERROR => "ZeroDivisionError"
  | ASSERTION_ERROR => "AssertionError"
  | ATTRIBUTE_ERROR => "AttributeError"
  | INDEX_ERROR => "IndexError"
  | KEY_ERROR => "KeyError"
  | OS_ERROR => "OSError"
  | TIMEOUT_ERROR => "TimeoutError"
  | RUNTIME_ERROR => "RuntimeError"
  | NOT_IMPLEMENTED_ERROR => "NotImplementedError"
  | SYNTAX_ERROR => "SyntaxError"
  | SYSTEM_ERROR => "SystemError"
  | TYPE_ERROR => "TypeError"
  | VALUE_ERROR => "ValueError"
  | GENERIC_ERROR => "GenericError"
  end.

(** *** The C library's [snprintf], for the directives used here

    [expand fmt args] is the text the format produces: [%s] consumes one
    argument and copies its characters, [%%] is a percent sign, any
    other character is copied.  [None] stands for a directive this
    model does not cover or a missing argument. *)
Fixpoint expand (fmt : string) (args : list str) : option string :=
  match fmt with
  | EmptyString => Some EmptyString
  | String c rest =>
      if Ascii.eqb c "%" then
        match rest with
        | String d rest' =>
            if Ascii.eqb d "s" then
              match args with
              | a :: args' => option_map (String.append (c_str a)) (expand rest' args')
              | [] => None
              end
            else if Ascii.eqb d "%" then option_map (String "%") (expand rest' args)
            else None
        | EmptyString => None
        end
      else option_map (String c) (expand rest args)
  end.

(** A [char] array is a list of characters; storing [data] at its
    start keeps the rest. *)
Definition store (buffer : list ascii) (data : list ascii) : list ascii :=
  data ++ skipn (List.length data) buffer.

(** [::snprintf( buffer, size, fmt, args... )]: at most [size - 1]
    characters and a terminator are stored; the value is the length of
    the whole text, negative when it does not fit an [int]. *)
Definition snprintf (buffer : list ascii) (size : nat) (fmt : string) (args : list str)
  : Z * list ascii :=
  match expand fmt args with
  | None => (-1, buffer)
  | Some text =>
      let len := Z.of_nat (String.length text) in
      if INT_MAX <? len then (-1, buffer)
      else
        match size with
        | O => (len, buffer)
        | S room =>
            (len, store buffer (firstn room (list_ascii_of_string text) ++ [NUL]))
        end
  end.

(** [std::array< char, 256 >]: [fill] and reading [data()] as a [str]. *)
Definition fill (a : list ascii) (c : ascii) : list ascii := map (fun _ => c) a.
Definition data (a : list ascii) : str := c_str (string_of_list_ascii a).

(** The zero-initialised [thread_local] buffer of [Error::toStr()]. *)
Definition s_buffer_init : list ascii := repeat NUL 256.

(** [auto toStr() const -> str], the instance form.  The state passed
    through is the calling thread's [s_buffer]; [None] is the null
    [str] of [return {}]. *)
Definition Error_toStr (self : Error) (s_buffer : list ascii) : option str * list ascii :=
  let s_buffer := fill s_buffer NUL in
  let '(written, s_buffer) :=
    snprintf s_buffer (List.length s_buffer) "%s: %s" [toStr (type self); message self] in
  if written <=? 0 then (None, s_buffer)
  else (Some (data s_buffer), s_buffer).

(** [std::expected< T, Error >]. *)
Inductive expected (T : Type) : Type :=
| has_value (v : T)
| unexpected (e : Error).

Arguments has_value {T} v.
Arguments unexpected {T} e.

Definition Result (T : Type) : Type := expected T.
Definition Status : Type := Result unit.

(** [ok( value )], [ok()] and [err( msg, typ )]. *)
Definition ok {T : Type} (value : T) : Result T := has_value value.
Definition ok_void : Status := has_value tt.
Definition err {T : Type} (msg : str) (typ : ErrorType) : Result T :=
  unexpected (mkError msg typ).
Definition err_generic {T : Type} (msg : str) : Result T := err msg GENERIC_ERROR.

(** [unwrap( res )], both overloads, and [verify( sta )]. *)
Definition unwrap {T : Type} (res : Result T) : Exec T :=
  match res with
  | unexpected _ => Aborted
  | has_value v => Returned v
  end.

Definition verify (sta : Status) : Exec unit :=
  match sta with
  | unexpected _ => Aborted
  | has_value _ => Returned tt
  end.

End Result.

(* ===================================================================== *)
(** ** snprintf.hpp *)
(* ===================================================================== *)

(** [cmn::ss::snprintf].  The destination is a [char] array given by its
    contents, [None] for a null pointer; counters of type [usize] are
    [nat] here, their wrap-around is out of reach of a list.  An
    argument is a [str] or a null pointer ([None]).  The format itself
    is not null (dereferencing it would be undefined). *)
Module Snprintf.
Import Types.

(** [buffer[pos] = c]; outside the array the store is undefined. *)
Definition poke (buffer : list ascii) (pos : nat) (c : ascii) : Exec (list ascii) :=
  if (pos <? List.length buffer)%nat
  then Returned (firstn pos buffer ++ c :: skipn (S pos) buffer)
  else Undefined.

(** [while( *p and pos < size - 1 ) { buffer[pos++] = *p++; }], the loop
    that copies the format when there are no arguments, and the one that
    copies a substituted argument. *)
Fixpoint copy_while (p : string) (size : nat) (buffer : list ascii) (pos : nat)
  : Exec (list ascii * nat) :=
  match p with
  | EmptyString => Returned (buffer, pos)
  | String c rest =>
      if negb (Ascii.eqb c NUL) && (pos <? size - 1)%nat then
        buffer' <- poke buffer pos c ;;
        copy_while rest size buffer' (S pos)
      else Returned (buffer, pos)
  end.

(** The loop of the branch with arguments: a [%s] with an argument left
    is replaced by that argument (nothing for a null one), any other
    character is copied. *)
Fixpoint format_loop (fmt : string) (arg_array : list (option str)) (arg_index : nat)
         (size : nat) (buffer : list ascii) (pos : nat) : Exec (list ascii * nat) :=
  match fmt with
  | EmptyString => Returned (buffer, pos)
  | String c rest =>
      if negb (Ascii.eqb c NUL) && (pos <? size - 1)%nat then
        match rest with
        | String d rest' =>
            if Ascii.eqb c "%" && Ascii.eqb d "s"
               && (arg_index <? List.length arg_array)%nat
            then
              match nth arg_index arg_array None with
              | Some sub =>
                  r <- copy_while sub size buffer pos ;;
                  format_loop rest' arg_array (S arg_index) size (fst r) (snd r)
              | None => format_loop rest' arg_array (S arg_index) size buffer pos
              end
            else
              buffer' <- poke buffer pos c ;;
              format_loop rest arg_array arg_index size buffer' (S pos)
        | EmptyString =>
            buffer' <- poke buffer pos c ;;
            format_loop rest arg_array arg_index size buffer' (S pos)
        end
      else Returned (buffer, pos)
  end.

(** [snprintf( buffer, size, format, args... )]: the number of
    characters stored before the terminator, and the array afterwards. *)
Definition snprintf (buffer : option (list ascii)) (size : nat) (format : str)
           (args : list (option str)) : Exec (nat * option (list ascii)) :=
  match buffer with
  | None => Returned (O, None)
  | Some buf =>
      if (size =? 0)%nat then Returned (O, Some buf)
      else
        r <- match args with
             | [] => copy_while format size buf 0
             | _ :: _ => format_loop format args 0 size buf 0
             end ;;
        buf' <- poke (fst r) (snd r) NUL ;;
        Returned (snd r, Some buf')
  end.

End Snprintf.

(* ===================================================================== *)
(** ** std::bitset< N >, as far as bits.hpp uses it *)
(* ===================================================================== *)

(** A [std::bitset< N >] is the number whose binary digits are its bits,
    in [[0, 2^N)].  The positional members check their argument and throw
    [std::out_of_range] before touching the bits. *)
Module Bitset.

Definition bitset (N : Z) : Type := Z.

Definition wf (N : Z) (b : bitset N) : Prop := 0 <= b < 2 ^ N.

(** [bitset< N >( unsigned long long val )]: the low [N] bits of [val]. *)
Definition of_ullong (N : Z) (val : Z) : bitset N := (val mod 2 ^ 64) mod 2 ^ N.

(** [to_ullong()]; with [N <= 64], as for every set built here, it
    cannot overflow. *)
Definition to_ullong {N : Z} (b : bitset N) : Z := b mod 2 ^ 64.

Definition test (N : Z) (b : bitset N) (pos : Z) : Exec bool :=
  if pos <? N then Returned (Z.testbit b pos) else Thrown out_of_range.

Definition set (N : Z) (b : bitset N) (pos : Z) : Exec (bitset N) :=
  if pos <? N then Returned (Z.setbit b pos) else Thrown out_of_range.

Definition reset (N : Z) (b : bitset N) (pos : Z) : Exec (bitset N) :=
  if pos <? N then Returned (Z.clearbit b pos) else Thrown out_of_range.

Definition flip (N : Z) (b : bitset N) (pos : Z) : Exec (bitset N) :=
  if pos <? N then Returned (Z.lxor b (Z.shiftl 1 pos)) else Thrown out_of_range.

(** The default constructor and the compound assignments. *)
Definition empty (N : Z) : bitset N := 0.
Definition or_assign {N : Z} (b other : bitset N) : bitset N := Z.lor b other.
Definition and_assign {N : Z} (b other : bitset N) : bitset N := Z.land b other.
Definition xor_assign {N : Z} (b other : bitset N) : bitset N := Z.lxor b other.

(** [reset()] without argument. *)
Definition reset_all {N : Z} (b : bitset N) : bitset N := 0.

Definition any {N : Z} (b : bitset N) : bool := negb (b =? 0).
Definition none {N : Z} (b : bitset N) : bool := b =? 0.

(** The [n] positions from [from] upwards, and the positions of an
    [N]-bit set. *)
Fixpoint indices (from : Z) (n : nat) : list Z :=
  match n with
  | O => []
  | S n' => from :: indices (from + 1) n'
  end.

Definition positions (N : Z) : list Z := indices 0 (Z.to_nat N).
Definition count (N : Z) (b : bitset N) : Z :=
  Z.of_nat (List.length (filter (Z.testbit b) (positions N))).

End Bitset.

(* ===================================================================== *)
(** ** bits.hpp *)
(* ===================================================================== *)

Module Bits.
Import Types Result.

(** The [BitmaskEnum] concept of traits.hpp: an enumeration with an
    unsigned underlying type and a member [ALL].  [ALL] is the
    enumerator's value, which its underlying type holds. *)
Class BitmaskEnum : Type := {
  Underlying : UInt;
  ALL : Z;
  ALL_fits : (0 <=? ALL) && (ALL <? 2 ^ width Underlying) = true
}.

(** [1 << i] with [i] a [usize]: the left operand is an [int], so is
    the result; a count of [INT_BITS] or more is undefined, a result
    that does not fit wraps to [int] (C++20). *)
Definition int_shl (a n : Z) : Exec Z :=
  if (0 <=? n) && (n <? INT_BITS) then Returned (to_int (a * 2 ^ n)) else Undefined.

Section FlagSet.
Context {E : BitmaskEnum}.

(** Values of [Enum] are the values of [Underlying]. *)
Definition representable (v : Z) : Prop := 0 <= v < 2 ^ width Underlying.

(** [~x] for [x] of type [Underlying]: [u8] and [u16] are promoted to
    [int] first, so the complement is the (negative) [int]; [u32] and
    [u64] stay unsigned. *)
Definition bit_not (x : Z) : Z :=
  match Underlying with
  | u8 | u16 => Z.lnot x
  | u32 | u64 => wrap Underlying (Z.lnot x)
  end.

(** The operators [|], [&] and [~] on [Enum] itself. *)
Definition enum_or (left right : Z) : Z :=
  wrap Underlying (Z.lor (wrap Underlying left) (wrap Underlying right)).

Definition enum_and (left right : Z) : Z :=
  wrap Underlying (Z.land (wrap Underlying left) (wrap Underlying right)).

Definition enum_not (num : Z) : Z :=
  wrap Underlying (bit_not (wrap Underlying num)).

Definition VALID_MASK : Z := wrap Underlying ALL.

(** The loop of the [NUM_BITS] initialiser,
    [for( ; all_bits; ) { ++count; all_bits >>= 1; }].  It stops within
    [width Underlying] rounds; the fuel is one more (lemma
    [NUM_BITS_fuel]: any larger amount gives the same count). *)
Fixpoint NUM_BITS_loop (fuel : nat) (all_bits : Z) (count : Z) : Z :=
  match fuel with
  | O => count
  | S fuel' =>
      if negb (all_bits =? 0)
      then NUM_BITS_loop fuel' (Z.shiftr all_bits 1) (count + 1)
      else count
  end.

Definition NUM_BITS : Z :=
  NUM_BITS_loop (S (Z.to_nat (width Underlying))) (wrap Underlying ALL) 0.

(** The loop of [bitPosition],
    [for( ; ( value & 1U ) == 0U and value; ) { ++pos; value >>= 1U; }],
    fuelled alike (lemma [bitPosition_fuel]). *)
Fixpoint bitPosition_loop (fuel : nat) (value : Z) (pos : Z) : Z :=
  match fuel with
  | O => pos
  | S fuel' =>
      if (Z.land value 1 =? 0) && negb (value =? 0)
      then bitPosition_loop fuel' (Z.shiftr value 1) (pos + 1)
      else pos
  end.

Definition bitPosition (value : Z) : Z :=
  if value =? 0 then NUM_BITS
  else bitPosition_loop (S (Z.to_nat (width Underlying))) value 0.

Record FlagSet : Type := mkFlagSet { m_bits : Bitset.bitset NUM_BITS }.

(** [FlagSet()] and [FlagSet( Enum num )]. *)
Definition FlagSet_default : FlagSet := mkFlagSet (Bitset.empty NUM_BITS).

Definition FlagSet_of (num : Z) : FlagSet :=
  mkFlagSet (Bitset.of_ullong NUM_BITS (Z.land (wrap Underlying num) VALID_MASK)).

(** Validation methods. *)
Definition isValid (value : Z) : bool :=
  Z.land (wrap Underlying value) (bit_not VALID_MASK) =? 0.

(** Conversion methods. *)
Definition toUnderlying (self : FlagSet) : Z :=
  wrap Underlying (Bitset.to_ullong (m_bits self)).

Definition toEnum (self : FlagSet) : Z := wrap Underlying (toUnderlying self).

Definition isValid_self (self : FlagSet) : bool :=
  Z.land (toUnderlying self) (bit_not VALID_MASK) =? 0.

(** Factory methods. *)
Definition fromUnderlying (raw : Z) : FlagSet :=
  FlagSet_of (wrap Underlying (Z.land raw VALID_MASK)).

Definition fromEnum (num : Z) : Result FlagSet :=
  if negb (isValid num)
  then err "Invalid enum value for FlagSet" VALUE_ERROR
  else ok (FlagSet_of num).

(** Single flag operations.  [has] is [const]; the other three
    return the outcome together with the object after the call. *)
Definition has (self : FlagSet) (num : Z) : Exec (Result bool) :=
  if negb (isValid num)
  then Returned (err "Invalid enum value" VALUE_ERROR)
  else
    b <- Bitset.test NUM_BITS (m_bits self) (bitPosition (wrap Underlying num)) ;;
    Returned (ok b).

Definition set (self : FlagSet) (num : Z) : Exec Status * FlagSet :=
  if negb (isValid num)
  then (Returned (err "Invalid enum value" VALUE_ERROR), self)
  else
    match Bitset.set NUM_BITS (m_bits self) (bitPosition (wrap Underlying num)) with
    | Returned b => (Returned ok_void, mkFlagSet b)
    | Thrown ex => (Thrown ex, self)
    | Aborted => (Aborted, self)
    | Undefined => (Undefined, self)
    end.

Definition clear (self : FlagSet) (num : Z) : Exec Status * FlagSet :=
  if negb (isValid num)
  then (Returned (err "Invalid enum value" VALUE_ERROR), self)
  else
    match Bitset.reset NUM_BITS (m_bits self) (bitPosition (wrap Underlying num)) with
    | Returned b => (Returned ok_void, mkFlagSet b)
    | Thrown ex => (Thrown ex, self)
    | Aborted => (Aborted, self)
    | Undefined => (Undefined, self)
    end.

Definition toggle (self : FlagSet) (num : Z) : Exec Status * FlagSet :=
  if negb (isValid num)
  then (Returned (err "Invalid enum value" VALUE_ERROR), self)
  else
    match Bitset.flip NUM_BITS (m_bits self) (bitPosition (wrap Underlying num)) with
    | Returned b => (Returned ok_void, mkFlagSet b)
    | Thrown ex => (Thrown ex, self)
    | Aborted => (Aborted, self)
    | Undefined => (Undefined, self)
    end.

(** Bulk operations. *)
Definition setAll (self : FlagSet) : Status * FlagSet :=
  (ok_void, mkFlagSet (Bitset.of_ullong NUM_BITS VALID_MASK)).

Definition clearAll (self : FlagSet) : Status * FlagSet :=
  (ok_void, mkFlagSet (Bitset.reset_all (m_bits self))).

Definition toggleAll (self : FlagSet) : Status * FlagSet :=
  (ok_void, mkFlagSet (Bitset.xor_assign (m_bits self) (Bitset.of_ullong NUM_BITS VALID_MASK))).

(** Query methods. *)
Definition hasAny (self : FlagSet) : bool := Bitset.any (m_bits self).
Definition hasNone (self : FlagSet) : bool := Bitset.none (m_bits self).
Definition count (self : FlagSet) : Z := Bitset.count NUM_BITS (m_bits self).

(** Operators. *)
Definition op_or (self other : FlagSet) : FlagSet :=
  FlagSet_of (wrap Underlying (Z.lor (toUnderlying self) (toUnderlying other))).

Definition op_and (self other : FlagSet) : FlagSet :=
  FlagSet_of (wrap Underlying (Z.land (toUnderlying self) (toUnderlying other))).

Definition op_not (self : FlagSet) : FlagSet :=
  FlagSet_of (wrap Underlying (Z.land (bit_not (toUnderlying self)) VALID_MASK)).

Definition op_xor (self other : FlagSet) : FlagSet :=
  FlagSet_of (wrap Underlying (Z.lxor (toUnderlying self) (toUnderlying other))).

Definition op_or_assign (self other : FlagSet) : FlagSet :=
  mkFlagSet (Bitset.or_assign (m_bits self) (m_bits other)).

Definition op_and_assign (self other : FlagSet) : FlagSet :=
  mkFlagSet (Bitset.and_assign (m_bits self) (m_bits other)).

Definition op_xor_assign (self other : FlagSet) : FlagSet :=
  mkFlagSet (Bitset.xor_assign (m_bits self) (m_bits other)).

(** [static_cast< Enum >( 1 << i )], as [forEach] and
    [Iterator::operator*] compute it. *)
Definition flag_at (i : Z) : Exec Z :=
  v <- int_shl 1 i ;; Returned (wrap Underlying v).

(** [forEach( func )]: the callback is a state transformer, [s] the
    state it works on. *)
Fixpoint forEach_loop {S : Type} (fuel : nat) (self : FlagSet)
         (func : Z -> S -> S) (i : Z) (s : S) : Exec S :=
  match fuel with
  | O => Returned s
  | Datatypes.S fuel' =>
      if i <? NUM_BITS then
        t <- Bitset.test NUM_BITS (m_bits self) i ;;
        if (t : bool) then
          flag <- flag_at i ;;
          forEach_loop fuel' self func (i + 1) (func flag s)
        else forEach_loop fuel' self func (i + 1) s
      else Returned s
  end.

Definition forEach {S : Type} (self : FlagSet) (func : Z -> S -> S) (s : S) : Exec S :=
  forEach_loop (Datatypes.S (Z.to_nat NUM_BITS)) self func 0 s.

(** [struct Iterator]: the referenced bit vector and the index. *)
Record Iterator : Type := mkIterator { it_bits : Bitset.bitset NUM_BITS; m_index : Z }.

Fixpoint advance_loop (fuel : nat) (bits : Bitset.bitset NUM_BITS) (index : Z) : Exec Z :=
  match fuel with
  | O => Returned index
  | Datatypes.S fuel' =>
      if index <? NUM_BITS then
        t <- Bitset.test NUM_BITS bits index ;;
        if negb t then advance_loop fuel' bits (index + 1) else Returned index
      else Returned index
  end.

Definition advance (it : Iterator) : Exec Iterator :=
  i <- advance_loop (Datatypes.S (Z.to_nat NUM_BITS)) (it_bits it) (m_index it) ;;
  Returned (mkIterator (it_bits it) i).

Definition Iterator_new (b : Bitset.bitset NUM_BITS) (i : Z) : Exec Iterator :=
  advance (mkIterator b i).

(** [operator++], [operator*] and [operator!=]. *)
Definition Iterator_incr (it : Iterator) : Exec Iterator :=
  advance (mkIterator (it_bits it) (m_index it + 1)).

Definition Iterator_deref (it : Iterator) : Exec Z := flag_at (m_index it).

Definition Iterator_neq (it other : Iterator) : bool :=
  negb (m_index it =? m_index other).

Definition begin_ (self : FlagSet) : Exec Iterator := Iterator_new (m_bits self) 0.
Definition end_ (self : FlagSet) : Exec Iterator := Iterator_new (m_bits self) NUM_BITS.

(** [for( auto flag : self ) body( flag );], that is
    [for( auto it = begin(), last = end(); it != last; ++it )
     { auto flag = *it; body( flag ); }] *)
Fixpoint range_for_loop {S : Type} (fuel : nat) (it last : Iterator)
         (body : Z -> S -> S) (s : S) : Exec S :=
  match fuel with
  | O => Returned s
  | Datatypes.S fuel' =>
      if Iterator_neq it last then
        flag <- Iterator_deref it ;;
        let s' := body flag s in
        it' <- Iterator_incr it ;;
        range_for_loop fuel' it' last body s'
      else Returned s
  end.

Definition range_for {S : Type} (self : FlagSet) (body : Z -> S -> S) (s : S) : Exec S :=
  it <- begin_ self ;;
  last <- end_ self ;;
  range_for_loop (Datatypes.S (Z.to_nat NUM_BITS)) it last body s.

(** The flags an iteration produces and the arguments [forEach]
    passes, each collected in order. *)
Definition collect (flag : Z) (seen : list Z) : list Z := seen ++ [flag].
Definition iterated (self : FlagSet) : Exec (list Z) := range_for self collect [].
Definition visited (self : FlagSet) : Exec (list Z) := forEach self collect [].

End FlagSet.

Arguments FlagSet : clear implicits.
Arguments Iterator : clear implicits.


End Bits.

(* ===================================================================== *)
(** ** Enumerations *)
(* ===================================================================== *)

(** The bitmask enumerations declared in traits.hpp and in the test
    suite, and one over [u64] whose [ALL] reaches bit 31. *)
Module Enums.
Import Types Bits.

(** [enum class TestBitmask : unsigned { NONE, FLAG1 = 1, FLAG2 = 2, ALL = 3 }] *)
Definition TestBitmask : BitmaskEnum :=
  {| Underlying := u32; ALL := 3; ALL_fits := eq_refl |}.

(** [enum class Permissions : u32] *)
Definition Permissions : BitmaskEnum :=
  {| Underlying := u32; ALL := 7; ALL_fits := eq_refl |}.
Definition READ : Z := 1.
Definition WRITE : Z := 2.
Definition EXECUTE : Z := 4.

(** [enum class FileFlags : u8] *)
Definition FileFlags : BitmaskEnum :=
  {| Underlying := u8; ALL := 15; ALL_fits := eq_refl |}.

(** [enum class NetworkFlags : u16], with a gap at bit 2. *)
Definition NetworkFlags : BitmaskEnum :=
  {| Underlying := u16; ALL := 27; ALL_fits := eq_refl |}.
Definition TCP : Z := 1.
Definition UDP : Z := 2.
Definition IPV6 : Z := 8.
Definition ENCRYPTED : Z := 16.

(** Not one of the repository's enumerations, but one the [BitmaskEnum]
    concept admits:
    [enum class WideFlags : u64 { NONE = 0, LOW = 1, HIGH = 0x80000000, ALL = LOW | HIGH }] *)
Definition WideFlags : BitmaskEnum :=
  {| Underlying := u64; ALL := 2147483649; ALL_fits := eq_refl |}.
Definition LOW : Z := 1.
Definition HIGH : Z := 2147483648.

End Enums.

(** [std::string long_msg( 300, 'A' )], the message of the truncation
    test. *)
Definition long_msg : Types.str := string_of_list_ascii (repeat "A"%char 300).

(* ===================================================================== *)
(** ** Vocabulary of the statements *)
(* ===================================================================== *)

Module Props.
Import Types Result Bits.

Section WithEnum.
Context {E : BitmaskEnum}.

(** Every stored bit is a bit of [VALID_MASK]. *)
Definition within_mask (self : FlagSet E) : Prop :=
  0 <= m_bits self /\ Z.land (m_bits self) VALID_MASK = m_bits self.

(** A valid flag set: a well-formed [bitset< NUM_BITS >] for which
    the instance [isValid()] answers [true]. *)
Definition valid (self : FlagSet E) : Prop :=
  Bitset.wf NUM_BITS (m_bits self) /\ isValid_self self = true.

(** The flag sets the public interface can produce: a constructor or
    factory, then any sequence of mutating calls and operators.  A
    mutating call contributes the object it leaves behind, whatever
    its outcome. *)
Inductive reachable : FlagSet E -> Prop :=
| reach_default : reachable FlagSet_default
| reach_of (num : Z) : reachable (FlagSet_of num)
| reach_fromUnderlying (raw : Z) : reachable (fromUnderlying raw)
| reach_fromEnum (num : Z) (fs : FlagSet E) :
    fromEnum num = has_value fs -> reachable fs
| reach_set (self : FlagSet E) (num : Z) :
    reachable self -> reachable (snd (set self num))
| reach_clear (self : FlagSet E) (num : Z) :
    reachable self -> reachable (snd (clear self num))
| reach_toggle (self : FlagSet E) (num : Z) :
    reachable self -> reachable (snd (toggle self num))
| reach_setAll (self : FlagSet E) :
    reachable self -> reachable (snd (setAll self))
| reach_clearAll (self : FlagSet E) :
    reachable self -> reachable (snd (clearAll self))
| reach_toggleAll (self : FlagSet E) :
    reachable self -> reachable (snd (toggleAll self))
| reach_or (self other : FlagSet E) :
    reachable self -> reachable other -> reachable (op_or self other)
| reach_and (self other : FlagSet E) :
    reachable self -> reachable other -> reachable (op_and self other)
| reach_xor (self other : FlagSet E) :
    reachable self -> reachable other -> reachable (op_xor self other)
| reach_not (self : FlagSet E) :
    reachable self -> reachable (op_not self)
| reach_or_assign (self other : FlagSet E) :
    reachable self -> reachable other -> reachable (op_or_assign self other)
| reach_and_assign (self other : FlagSet E) :
    reachable self -> reachable other -> reachable (op_and_assign self other)
| reach_xor_assign (self other : FlagSet E) :
    reachable self -> reachable other -> reachable (op_xor_assign self other).

(** The specification's iteration order: the single-bit flags that
    are stored, lowest position first. *)
Definition stored_flags (self : FlagSet E) : list Z :=
  map (fun i => 2 ^ i) (filter (Z.testbit (m_bits self)) (Bitset.positions NUM_BITS)).

(** One pass over the positions [l], calling [func] on the flag of
    each stored one: what both traversals come down to. *)
Fixpoint fold_flags {S : Type} (self : FlagSet E) (func : Z -> S -> S)
         (l : list Z) (s : S) : Exec S :=
  match l with
  | [] => Returned s
  | i :: l' =>
      if Z.testbit (m_bits self) i then
        flag <- flag_at i ;; fold_flags self func l' (func flag s)
      else fold_flags self func l' s
  end.

End WithEnum.

(** The text a format stands for when nothing bounds it: each [%s] that
    still has an argument replaced by the argument's characters, nothing
    for a null argument; every other character kept; the text of the
    format ends at its terminator. *)
Fixpoint expansion (fmt : string) (args : list (option Types.str)) (arg_index : nat)
  : string :=
  match fmt with
  | EmptyString => EmptyString
  | String c rest =>
      if Ascii.eqb c Types.NUL then EmptyString
      else
        match rest with
        | String d rest' =>
            if Ascii.eqb c "%" && Ascii.eqb d "s" && (arg_index <? List.length args)%nat
            then
              (match nth arg_index args None with
               | Some sub => Types.c_str sub
               | None => EmptyString
               end ++ expansion rest' args (S arg_index))%string
            else String c (expansion rest args arg_index)
        | EmptyString => String c EmptyString
        end
  end.

(** An array with the characters [l] stored from position [pos] on. *)
Definition blit (buffer : list ascii) (pos : nat) (l : list ascii) : list ascii :=
  firstn pos buffer ++ l ++ skipn (pos + List.length l) buffer.

(** The number of set bits of a value of at most 64 bits. *)
Definition popcount (v : Z) : Z := Bitset.count 64 v.

End Props.

(* ===================================================================== *)
(** * Properties of result.hpp *)
(* ===================================================================== *)

Import Types Result.

(** [toStr] has a name for each enumerator, none of them empty, no two
    the same. *)
Lemma toStr_nonempty (typ : ErrorType) : toStr typ <> "".
Proof. destruct typ; discriminate. Qed.

Lemma toStr_injective (a b : ErrorType) : toStr a = toStr b -> a = b.
Proof. destruct a, b; intros H; (reflexivity || discriminate H). Qed.

Lemma all_kinds_complete (typ : ErrorType) : In typ all_kinds.
Proof. destruct typ; unfold all_kinds; simpl; tauto. Qed.

(** C8: the static [Error::toStr] is defined on each of the 17 kinds: the
    list of enumerators has 17 distinct entries and misses none, and it
    maps, in declaration order, onto exactly the documented names, each of
    them non-empty. *)
Theorem toStr_kind_names :
  List.length all_kinds = 17%nat
  /\ NoDup all_kinds
  /\ (forall typ, In typ all_kinds)
  /\ map toStr all_kinds =
       [ "ArithmeticError"; "FloatingPointError"; "OverflowError"; "ZeroDivisionError";
         "AssertionError"; "AttributeError"; "IndexError"; "KeyError"; "OSError";
         "TimeoutError"; "RuntimeError"; "NotImplementedError"; "SyntaxError";
         "SystemError"; "TypeError"; "ValueError"; "GenericError" ]
  /\ (forall typ, toStr typ <> "").
Proof.
  split; [reflexivity|].
  split.
  { unfold all_kinds.
    repeat (constructor; [simpl; intuition discriminate|]).
    constructor. }
  split; [exact all_kinds_complete|].
  split; [reflexivity|exact toStr_nonempty].
Qed.

(** C9: [unwrap] hands back exactly the payload of a success and aborts on
    an error; [verify] returns exactly on a success and aborts
    otherwise. *)
Theorem unwrap_verify_contract :
  (forall (T : Type) (v : T), unwrap (ok v) = Returned v)
  /\ (forall (T : Type) (msg : str) (typ : ErrorType),
         unwrap (err msg typ : Result T) = Aborted)
  /\ (forall (T : Type) (res : Result T) (v : T),
         unwrap res = Returned v <-> res = has_value v)
  /\ (forall (T : Type) (res : Result T),
         unwrap res = Aborted <-> exists e, res = unexpected e)
  /\ verify ok_void = Returned tt
  /\ (forall sta : Status, verify sta = Returned tt <-> exists u, sta = has_value u)
  /\ (forall sta : Status, verify sta = Aborted <-> exists e, sta = unexpected e).
Proof.
  repeat split; try reflexivity.
  - destruct res; simpl; intros H; congruence.
  - intros ->; reflexivity.
  - destruct res; simpl; intros H; [discriminate|eauto].
  - intros [e ->]; reflexivity.
  - destruct sta; simpl; intros H; [eauto|discriminate].
  - intros [u ->]; reflexivity.
  - destruct sta; simpl; intros H; [discriminate|eauto].
  - intros [e ->]; reflexivity.
Qed.

(** *** C strings and the buffer *)

Lemma c_str_idem (s : string) : c_str (c_str s) = c_str s.
Proof.
  induction s as [|c s IH]; simpl; [reflexivity|].
  destruct (Ascii.eqb c NUL) eqn:Hc; simpl; [reflexivity|].
  now rewrite Hc, IH.
Qed.

Lemma c_str_cons (c : ascii) (s : string) :
  c_str (String c s) = String c s -> Ascii.eqb c NUL = false /\ c_str s = s.
Proof.
  simpl. destruct (Ascii.eqb c NUL); [discriminate|].
  intros H; split; [reflexivity|congruence].
Qed.

Lemma c_str_append (a b : string) :
  c_str a = a -> c_str b = b -> c_str (a ++ b) = (a ++ b)%string.
Proof.
  induction a as [|c a IH]; intros Ha Hb; simpl; [exact Hb|].
  apply c_str_cons in Ha as [Hc Ha]. now rewrite Hc, IH.
Qed.

Lemma c_str_substring (n : nat) (s : string) :
  c_str s = s -> c_str (substring 0 n s) = substring 0 n s.
Proof.
  revert s; induction n as [|n IH]; intros [|c s] H; simpl; try reflexivity.
  apply c_str_cons in H as [Hc H]. now rewrite Hc, IH.
Qed.

Lemma c_str_toStr (typ : ErrorType) : c_str (toStr typ) = toStr typ.
Proof. destruct typ; reflexivity. Qed.

Lemma append_empty_r (s : string) : (s ++ "")%string = s.
Proof. induction s as [|c s IH]; simpl; congruence. Qed.

Lemma append_assoc (a b c : string) :
  ((a ++ b) ++ c)%string = (a ++ b ++ c)%string.
Proof. induction a as [|x a IH]; simpl; congruence. Qed.

Lemma length_append (a b : string) :
  String.length (a ++ b) = (String.length a + String.length b)%nat.
Proof. induction a as [|c a IH]; simpl; congruence. Qed.

Lemma length_substring (n : nat) (s : string) :
  String.length (substring 0 n s) = Nat.min n (String.length s).
Proof.
  revert s; induction n as [|n IH]; intros [|c s]; simpl; try reflexivity.
  now rewrite IH.
Qed.

Lemma substring_firstn (n : nat) (s : string) :
  string_of_list_ascii (firstn n (list_ascii_of_string s)) = substring 0 n s.
Proof.
  revert s; induction n as [|n IH]; intros [|c s]; simpl; try reflexivity.
  now rewrite IH.
Qed.

Lemma prefix_substring (p r : string) (n : nat) :
  (String.length p <= n)%nat -> prefix p (substring 0 n (p ++ r)) = true.
Proof.
  revert n; induction p as [|c p IH]; intros n Hn; simpl.
  - destruct (substring 0 n r); reflexivity.
  - destruct n as [|n]; simpl in *; [lia|].
    destruct (ascii_dec c c) as [_|Hne]; [|contradiction].
    apply IH; lia.
Qed.

(** Reading the buffer back stops at the terminator [snprintf] stored. *)
Lemma data_terminated (s : string) (rest : list ascii) :
  c_str s = s -> data (list_ascii_of_string s ++ NUL :: rest) = s.
Proof.
  unfold data. induction s as [|c s IH]; intros H; simpl; [reflexivity|].
  apply c_str_cons in H as [Hc H]. now rewrite Hc, IH.
Qed.

Lemma expand_kind_message (kind msg : str) :
  expand "%s: %s" [kind; msg] = Some (c_str kind ++ ": " ++ c_str msg)%string.
Proof. simpl. now rewrite append_empty_r. Qed.

(** What [Error::toStr()] returns: the first 255 characters of
    ["<kind>: <message>"], for a message whose formatted length fits an
    [int]. *)
Lemma Error_toStr_value (self : Error) (s_buffer : list ascii) :
  List.length s_buffer = 256%nat ->
  Z.of_nat (strlen (message self)) <= INT_MAX - 32 ->
  fst (Error_toStr self s_buffer)
  = Some (substring 0 255 (toStr (type self) ++ ": " ++ c_str (message self))).
Proof.
  intros Hlen Hfit. unfold Error_toStr, snprintf.
  rewrite expand_kind_message, c_str_toStr.
  set (text := (toStr (type self) ++ ": " ++ c_str (message self))%string).
  assert (Htext : c_str text = text).
  { unfold text. apply c_str_append; [apply c_str_toStr|].
    apply (c_str_append ": "); [reflexivity|apply c_str_idem]. }
  assert (Hpos : 0 < Z.of_nat (String.length text) <= INT_MAX).
  { unfold text. rewrite !length_append. fold (strlen (message self)).
    unfold INT_MAX, INT_BITS in *.
    destruct (type self); simpl String.length; lia. }
  destruct (INT_MAX <? Z.of_nat (String.length text)) eqn:Hov; [lia|].
  unfold fill at 1. rewrite length_map, Hlen.
  destruct (Z.of_nat (String.length text) <=? 0) eqn:Hle; [lia|].
  cbn [fst]. f_equal.
  unfold store. rewrite <- app_assoc. cbn [app].
  rewrite <- (list_ascii_of_string_of_list_ascii (firstn 255 _)), substring_firstn.
  apply data_terminated, c_str_substring, Htext.
Qed.

Lemma Error_toStr_buffer_size (self : Error) (s_buffer : list ascii) :
  List.length s_buffer = 256%nat ->
  List.length (snd (Error_toStr self s_buffer)) = 256%nat.
Proof.
  intros Hlen. unfold Error_toStr, snprintf.
  assert (Hfill : List.length (fill s_buffer NUL) = 256%nat)
    by (unfold fill; now rewrite length_map).
  destruct (expand _ _) as [text|]; [|exact Hfill].
  destruct (INT_MAX <? _); [exact Hfill|].
  rewrite Hfill. cbv iota.
  match goal with |- context [if ?c then _ else _] => destruct c end; cbn [snd];
    unfold store; rewrite ?length_app, ?length_skipn, ?length_app, ?length_firstn, ?Hfill;
    cbn [List.length]; lia.
Qed.

(** C7: [Error::toStr()] writes ["<KindName>: <message>"] into the
    256-character buffer: for [Error( "division by zero",
    ZERO_DIVISION_ERROR )] the result is exactly ["ZeroDivisionError:
    division by zero"]; for a message of 300 characters, of any kind, the
    result is the first 255 characters of the full text, so it is 255
    characters long, starts with the kind name and [": "], and the buffer
    keeps its 256 characters. *)
Theorem Error_toStr_formats_and_truncates
        (s_buffer : list ascii) (msg : str) (typ : ErrorType) :
  List.length s_buffer = 256%nat ->
  strlen msg = 300%nat ->
  fst (Error_toStr (mkError "division by zero" ZERO_DIVISION_ERROR) s_buffer)
  = Some "ZeroDivisionError: division by zero"
  /\ exists s : str,
      fst (Error_toStr (mkError msg typ) s_buffer) = Some s
      /\ s = substring 0 255 (toStr typ ++ ": " ++ c_str msg)
      /\ String.length s = 255%nat
      /\ prefix (toStr typ ++ ": ") s = true
      /\ List.length (snd (Error_toStr (mkError msg typ) s_buffer)) = 256%nat.
Proof.
  intros Hlen Hmsg. split.
  - rewrite Error_toStr_value by (trivial; vm_compute; discriminate).
    reflexivity.
  - eexists. split; [|split; [reflexivity|]].
    + apply Error_toStr_value; [exact Hlen|].
      cbn [message]. rewrite Hmsg. vm_compute. discriminate.
    + cbn [message type]. split; [|split].
      * rewrite length_substring, !length_append. fold (strlen msg). rewrite Hmsg.
        destruct typ; reflexivity.
      * replace (toStr typ ++ ": " ++ c_str msg)%string
          with ((toStr typ ++ ": ") ++ c_str msg)%string.
        { apply prefix_substring. rewrite length_append. destruct typ; simpl; lia. }
        { apply append_assoc. }
      * apply Error_toStr_buffer_size, Hlen.
Qed.

Lemma Error_toStr_formats_and_truncates_witness :
  fst (Error_toStr (mkError "division by zero" ZERO_DIVISION_ERROR) s_buffer_init)
  = Some "ZeroDivisionError: division by zero"
  /\ exists s : str,
      fst (Error_toStr (mkError long_msg RUNTIME_ERROR) s_buffer_init) = Some s
      /\ s = substring 0 255 (toStr RUNTIME_ERROR ++ ": " ++ c_str long_msg)
      /\ String.length s = 255%nat
      /\ prefix (toStr RUNTIME_ERROR ++ ": ") s = true
      /\ List.length (snd (Error_toStr (mkError long_msg RUNTIME_ERROR) s_buffer_init))
         = 256%nat.
Proof.
  apply (Error_toStr_formats_and_truncates s_buffer_init long_msg RUNTIME_ERROR);
    reflexivity.
Defined.

(* ===================================================================== *)
(** * Properties of bits.hpp *)
(* ===================================================================== *)

Import Bits Enums Props.

(** *** Bit-level facts *)

Lemma land_lnot_zero_iff (v m : Z) :
  Z.land v (Z.lnot m) = 0 <-> Z.land v m = v.
Proof.
  split; intros H.
  - Z.bitblast.
    assert (Hz : Z.testbit (Z.land v (Z.lnot m)) i = false)
      by (rewrite H; apply Z.testbit_0_l).
    rewrite Z.land_spec, Z.lnot_spec in Hz by assumption.
    destruct (Z.testbit v i), (Z.testbit m i); simpl in *; congruence.
  - rewrite <- H. Z.bitblast.
Qed.

Lemma land_subset_testbit (a m : Z) (i : Z) :
  Z.land a m = a -> Z.testbit a i = true -> Z.testbit m i = true.
Proof.
  intros H Ha. rewrite <- H, Z.land_spec in Ha.
  now apply andb_true_iff in Ha.
Qed.

Lemma land_nonneg_bound (a m : Z) : 0 <= m -> 0 <= Z.land a m <= m.
Proof.
  intros Hm. split; [apply Z.land_nonneg; now right|].
  destruct (Z.eq_dec m 0) as [->|Hne]; [rewrite Z.land_0_r; lia|].
  destruct (Z.eq_dec (Z.land a m) 0) as [->|Hne']; [lia|].
  assert (Hnn : 0 <= Z.land a m) by (apply Z.land_nonneg; now right).
  destruct (Z_le_gt_dec (Z.land a m) m) as [Hle|Hgt]; [exact Hle|exfalso].
  assert (Hsub : Z.ldiff (Z.land a m) m = 0) by Z.bitblast.
  apply Z.ldiff_le in Hsub; lia.
Qed.

Lemma testbit_true_lt_pow2 (a n i : Z) :
  0 <= a < 2 ^ n -> Z.testbit a i = true -> i < n.
Proof.
  intros Ha Hi. destruct (Z_lt_ge_dec i n) as [Hlt|Hge]; [exact Hlt|exfalso].
  assert (Hn : 0 <= n \/ n < 0) by lia. destruct Hn as [Hn|Hn].
  - rewrite <- (Z.mod_small a (2 ^ n)) in Hi by lia.
    rewrite Z.mod_pow2_bits_high in Hi by lia. discriminate.
  - rewrite Z.pow_neg_r in Ha by lia. lia.
Qed.

Section FlagSetFacts.
Context {E : BitmaskEnum}.

Lemma width_range : 0 < width Underlying <= 64.
Proof. destruct Underlying; simpl; lia. Qed.

Lemma ALL_range : 0 <= ALL < 2 ^ width Underlying.
Proof.
  pose proof ALL_fits as H. apply andb_true_iff in H as [H1 H2].
  apply Z.leb_le in H1. apply Z.ltb_lt in H2. lia.
Qed.

Lemma wrap_small (v : Z) : representable v -> wrap Underlying v = v.
Proof. intros H. apply Z.mod_small, H. Qed.

Lemma VALID_MASK_ALL : VALID_MASK = ALL.
Proof. apply wrap_small, ALL_range. Qed.

Lemma VALID_MASK_range : 0 <= VALID_MASK < 2 ^ width Underlying.
Proof. rewrite VALID_MASK_ALL. apply ALL_range. Qed.

(** *** The two shift loops leave by their condition *)

Lemma NUM_BITS_loop_spec (fuel : nat) :
  forall a c k : Z,
    0 <= a < 2 ^ k -> 0 <= k < Z.of_nat fuel ->
    let r := NUM_BITS_loop fuel a c in
    c <= r <= c + k /\ a < 2 ^ (r - c) /\ (c < r -> 2 ^ (r - c - 1) <= a).
Proof.
  induction fuel as [|fuel IH]; intros a c k Ha Hk; [lia|].
  cbn [NUM_BITS_loop]. destruct (Z.eqb_spec a 0) as [->|Hne]; cbn [negb].
  - rewrite Z.sub_diag. simpl. lia.
  - assert (Hk1 : 1 <= k).
    { destruct (Z.eq_dec k 0) as [->|]; [simpl in Ha|]; lia. }
    rewrite Z.shiftr_div_pow2 by lia. change (2 ^ 1) with 2.
    assert (Hpk : 2 ^ k = 2 * 2 ^ (k - 1)).
    { rewrite <- Z.pow_succ_r by lia. f_equal. lia. }
    specialize (IH (a / 2) (c + 1) (k - 1)).
    cbv zeta in IH. set (r := NUM_BITS_loop fuel (a / 2) (c + 1)) in *.
    destruct IH as (Hr & Hup & Hlow).
    { split; [apply Z.div_pos; lia|]. apply Z.div_lt_upper_bound; lia. }
    { lia. }
    assert (Hpr : 2 ^ (r - c) = 2 * 2 ^ (r - (c + 1))).
    { rewrite <- Z.pow_succ_r by lia. f_equal. lia. }
    pose proof (Z.div_mod a 2 ltac:(lia)) as Hdm.
    pose proof (Z.mod_pos_bound a 2 ltac:(lia)) as Hmb.
    split; [lia|]. split; [lia|]. intros _.
    destruct (Z.eq_dec r (c + 1)) as [Heq|Hneq].
    + replace (r - c - 1) with 0 by lia. simpl. lia.
    + assert (Hpr' : 2 ^ (r - c - 1) = 2 * 2 ^ (r - (c + 1) - 1)).
      { rewrite <- Z.pow_succ_r by lia. f_equal. lia. }
      lia.
Qed.

Lemma NUM_BITS_loop_stable (fuel fuel' : nat) :
  forall a c k : Z,
    0 <= a < 2 ^ k -> 0 <= k < Z.of_nat fuel -> k < Z.of_nat fuel' ->
    NUM_BITS_loop fuel' a c = NUM_BITS_loop fuel a c.
Proof.
  revert fuel'. induction fuel as [|fuel IH]; intros [|fuel'] a c k Ha Hk Hk'; try lia.
  cbn [NUM_BITS_loop]. destruct (Z.eqb_spec a 0) as [->|Hne]; cbn [negb]; [reflexivity|].
  assert (Hk1 : 1 <= k).
  { destruct (Z.eq_dec k 0) as [->|]; [simpl in Ha|]; lia. }
  apply (IH fuel' _ _ (k - 1)); try lia.
  rewrite Z.shiftr_div_pow2 by lia. change (2 ^ 1) with 2.
  assert (Hpk : 2 ^ k = 2 * 2 ^ (k - 1)).
  { rewrite <- Z.pow_succ_r by lia. f_equal. lia. }
  split; [apply Z.div_pos; lia|]. apply Z.div_lt_upper_bound; lia.
Qed.

(** [NUM_BITS] is the bit length of [VALID_MASK]. *)
Lemma NUM_BITS_spec :
  0 <= NUM_BITS <= width Underlying
  /\ VALID_MASK < 2 ^ NUM_BITS
  /\ (0 < NUM_BITS -> 2 ^ (NUM_BITS - 1) <= VALID_MASK).
Proof.
  pose proof width_range as Hw. pose proof VALID_MASK_range as Hm.
  pose proof (NUM_BITS_loop_spec (S (Z.to_nat (width Underlying)))
                VALID_MASK 0 (width Underlying) Hm ltac:(lia)) as H.
  cbv zeta in H.
  change (NUM_BITS_loop _ VALID_MASK 0) with NUM_BITS in H.
  rewrite !Z.sub_0_r in H. lia.
Qed.

Lemma NUM_BITS_fuel (fuel : nat) :
  width Underlying < Z.of_nat fuel ->
  NUM_BITS_loop fuel (wrap Underlying ALL) 0 = NUM_BITS.
Proof.
  intros Hf. pose proof width_range as Hw.
  apply (NUM_BITS_loop_stable _ _ _ _ (width Underlying)); try lia.
  apply VALID_MASK_range.
Qed.

(** *** [bitPosition]: the lowest set bit *)

Lemma land_1_testbit (v : Z) : (Z.land v 1 =? 0) = negb (Z.testbit v 0).
Proof.
  change 1 with (Z.ones 1) at 1. rewrite Z.land_ones by lia.
  rewrite Z.bit0_eqb. change (2 ^ 1) with 2.
  pose proof (Z.mod_pos_bound v 2 ltac:(lia)).
  destruct (Z.eqb_spec (v mod 2) 0), (Z.eqb_spec (v mod 2) 1); simpl; lia.
Qed.

Lemma bitPosition_loop_spec (fuel : nat) :
  forall v c k : Z,
    0 < v < 2 ^ k -> k <= Z.of_nat fuel ->
    let r := bitPosition_loop fuel v c in
    c <= r < c + k
    /\ Z.testbit v (r - c) = true
    /\ (forall j, 0 <= j < r - c -> Z.testbit v j = false).
Proof.
  induction fuel as [|fuel IH]; intros v c k Hv Hk.
  - exfalso. assert (k = 0 \/ k < 0) as [->|Hn] by lia; [simpl in Hv; lia|].
    rewrite Z.pow_neg_r in Hv by lia. lia.
  - assert (Hk1 : 1 <= k).
    { destruct (Z_lt_ge_dec k 1) as [Hlt|]; [exfalso|lia].
      assert (k = 0 \/ k < 0) as [->|Hn] by lia; [simpl in Hv; lia|].
      rewrite Z.pow_neg_r in Hv by lia. lia. }
    cbn [bitPosition_loop]. rewrite land_1_testbit.
    destruct (Z.eqb_spec v 0) as [|_]; [lia|]. rewrite andb_true_r.
    destruct (Z.testbit v 0) eqn:Hb0; cbn [negb].
    + rewrite Z.sub_diag. split; [lia|]. split; [exact Hb0|]. intros j Hj; lia.
    + assert (Hpk : 2 ^ k = 2 * 2 ^ (k - 1)).
      { rewrite <- Z.pow_succ_r by lia. f_equal. lia. }
      assert (Hhalf : 0 < Z.shiftr v 1 < 2 ^ (k - 1)).
      { rewrite Z.shiftr_div_pow2 by lia. change (2 ^ 1) with 2.
        pose proof (Z.div_mod v 2 ltac:(lia)) as Hdm.
        rewrite Z.bit0_eqb in Hb0. apply Z.eqb_neq in Hb0.
        pose proof (Z.mod_pos_bound v 2 ltac:(lia)).
        split; [|apply Z.div_lt_upper_bound; lia].
        assert (v mod 2 = 0) by lia. lia. }
      specialize (IH (Z.shiftr v 1) (c + 1) (k - 1) Hhalf ltac:(lia)).
      cbv zeta in IH. set (r := bitPosition_loop fuel (Z.shiftr v 1) (c + 1)) in *.
      destruct IH as (Hr & Hset & Hlow).
      split; [lia|]. split.
      * rewrite Z.shiftr_spec in Hset by lia.
        now replace (r - (c + 1) + 1) with (r - c) in Hset by lia.
      * intros j Hj. destruct (Z.eq_dec j 0) as [->|Hj0]; [exact Hb0|].
        specialize (Hlow (j - 1) ltac:(lia)).
        rewrite Z.shiftr_spec in Hlow by lia.
        now replace (j - 1 + 1) with j in Hlow by lia.
Qed.

(** The lowest set bit is unique, so more fuel changes nothing. *)
Lemma lowest_bit_unique (v p q : Z) :
  0 <= p -> 0 <= q ->
  Z.testbit v p = true -> (forall j, 0 <= j < p -> Z.testbit v j = false) ->
  Z.testbit v q = true -> (forall j, 0 <= j < q -> Z.testbit v j = false) ->
  p = q.
Proof.
  intros Hp Hq Hvp Hlp Hvq Hlq.
  destruct (Z.lt_trichotomy p q) as [Hlt|[Heq|Hgt]]; [|exact Heq|].
  - rewrite Hlq in Hvp by lia. discriminate.
  - rewrite Hlp in Hvq by lia. discriminate.
Qed.

Lemma bitPosition_spec (v : Z) :
  representable v -> v <> 0 ->
  0 <= bitPosition v < width Underlying
  /\ Z.testbit v (bitPosition v) = true
  /\ (forall j, 0 <= j < bitPosition v -> Z.testbit v j = false).
Proof.
  intros Hv Hne. unfold bitPosition.
  destruct (Z.eqb_spec v 0) as [|_]; [contradiction|].
  pose proof width_range as Hw.
  pose proof (bitPosition_loop_spec (S (Z.to_nat (width Underlying)))
                v 0 (width Underlying)) as H.
  cbv zeta in H. rewrite !Z.sub_0_r in H.
  apply H; [unfold representable in Hv|]; lia.
Qed.

Lemma bitPosition_fuel (fuel : nat) (v : Z) :
  representable v -> v <> 0 ->
  width Underlying <= Z.of_nat fuel ->
  bitPosition_loop fuel v 0 = bitPosition v.
Proof.
  intros Hv Hne Hf.
  pose proof (bitPosition_spec v Hv Hne) as (Hr & Hset & Hlow).
  pose proof (bitPosition_loop_spec fuel v 0 (width Underlying)) as H.
  cbv zeta in H. rewrite !Z.sub_0_r in H.
  destruct H as (Hr' & Hset' & Hlow'); [unfold representable in Hv; lia|lia|].
  apply lowest_bit_unique with (v := v); auto; lia.
Qed.

Lemma bitPosition_zero : bitPosition 0 = NUM_BITS.
Proof. reflexivity. Qed.

Lemma bitPosition_pow2 (k : Z) :
  0 <= k < width Underlying -> bitPosition (2 ^ k) = k.
Proof.
  intros Hk.
  assert (Hrep : representable (2 ^ k)).
  { unfold representable. split; [apply Z.pow_nonneg; lia|].
    apply Z.pow_lt_mono_r; lia. }
  assert (Hne : 2 ^ k <> 0) by (apply Z.pow_nonzero; lia).
  pose proof (bitPosition_spec _ Hrep Hne) as (Hr & Hset & _).
  rewrite Z.pow2_bits_eqb in Hset by lia.
  apply Z.eqb_eq in Hset. lia.
Qed.

(** *** Validation *)

Lemma land_bit_not (v m : Z) :
  representable v -> Z.land v (bit_not m) = Z.land v (Z.lnot m).
Proof.
  unfold representable, bit_not, wrap. intros Hv.
  destruct Underlying; try reflexivity; cbn [width] in *;
    rewrite <- (Z.mod_small v _ Hv); Z.bitblast.
Qed.

Lemma wrap_representable (v : Z) : representable (wrap Underlying v).
Proof.
  pose proof width_range. apply Z.mod_pos_bound, Z.pow_pos_nonneg; lia.
Qed.

Lemma wrap_idem (v : Z) : wrap Underlying (wrap Underlying v) = wrap Underlying v.
Proof. apply wrap_small, wrap_representable. Qed.

Lemma isValid_wrap (v : Z) : isValid (wrap Underlying v) = isValid v.
Proof. unfold isValid. now rewrite wrap_idem. Qed.

Lemma isValid_true_iff (v : Z) :
  representable v -> (isValid v = true <-> Z.land v (Z.lnot VALID_MASK) = 0).
Proof.
  intros Hv. unfold isValid. rewrite (wrap_small v Hv), (land_bit_not _ _ Hv).
  apply Z.eqb_eq.
Qed.

Lemma isValid_false_iff (v : Z) :
  representable v -> (isValid v = false <-> Z.land v (Z.lnot VALID_MASK) <> 0).
Proof.
  intros Hv. unfold isValid. rewrite (wrap_small v Hv), (land_bit_not _ _ Hv).
  apply Z.eqb_neq.
Qed.

Lemma isValid_subset (v : Z) :
  representable v -> isValid v = true -> Z.land v VALID_MASK = v.
Proof.
  intros Hv H. now apply land_lnot_zero_iff, isValid_true_iff.
Qed.

(** *** The invariant *)

Lemma masked_lt_NUM_BITS (m : Z) :
  0 <= m -> Z.land m VALID_MASK = m -> 0 <= m < 2 ^ NUM_BITS.
Proof.
  intros Hm Hsub. pose proof NUM_BITS_spec as (_ & Hlt & _).
  pose proof VALID_MASK_range as [Hr _].
  pose proof (land_nonneg_bound m VALID_MASK Hr) as Hb.
  rewrite Hsub in Hb. lia.
Qed.

Lemma pow2_NUM_BITS_le : 2 ^ NUM_BITS <= 2 ^ width Underlying <= 2 ^ 64.
Proof.
  pose proof NUM_BITS_spec as (Hn & _). pose proof width_range.
  split; apply Z.pow_le_mono_r; lia.
Qed.

Lemma of_ullong_small (x : Z) :
  0 <= x < 2 ^ NUM_BITS -> Bitset.of_ullong NUM_BITS x = x.
Proof.
  intros Hx. pose proof pow2_NUM_BITS_le. unfold Bitset.of_ullong.
  rewrite (Z.mod_small x (2 ^ 64)) by lia. now apply Z.mod_small.
Qed.

Lemma within_mask_wf (self : FlagSet E) :
  within_mask self -> Bitset.wf NUM_BITS (m_bits self).
Proof. intros [H0 Hs]. now apply masked_lt_NUM_BITS. Qed.

Lemma toUnderlying_wf (self : FlagSet E) :
  Bitset.wf NUM_BITS (m_bits self) -> toUnderlying self = m_bits self.
Proof.
  unfold Bitset.wf. intros Hwf. pose proof pow2_NUM_BITS_le.
  unfold toUnderlying, Bitset.to_ullong, wrap.
  rewrite (Z.mod_small (m_bits self) (2 ^ 64)) by lia. apply Z.mod_small; lia.
Qed.

Lemma toUnderlying_representable (self : FlagSet E) :
  representable (toUnderlying self).
Proof. apply wrap_representable. Qed.

Lemma valid_iff_within_mask (self : FlagSet E) :
  valid self <-> within_mask self.
Proof.
  unfold valid, within_mask, isValid_self. split.
  - intros [Hwf Hv]. split; [apply Hwf|].
    rewrite (land_bit_not _ _ (toUnderlying_representable self)) in Hv.
    apply Z.eqb_eq, land_lnot_zero_iff in Hv.
    now rewrite (toUnderlying_wf self Hwf) in Hv.
  - intros Hi. pose proof (within_mask_wf self Hi) as Hwf. split; [exact Hwf|].
    rewrite (land_bit_not _ _ (toUnderlying_representable self)).
    apply Z.eqb_eq, land_lnot_zero_iff.
    rewrite (toUnderlying_wf self Hwf). apply Hi.
Qed.

Lemma m_bits_FlagSet_of (num : Z) :
  m_bits (FlagSet_of num) = Z.land (wrap Underlying num) VALID_MASK.
Proof.
  cbn [FlagSet_of m_bits]. apply of_ullong_small, masked_lt_NUM_BITS.
  - apply Z.land_nonneg. right. apply VALID_MASK_range.
  - Z.bitblast.
Qed.

Lemma within_mask_FlagSet_of (num : Z) : within_mask (FlagSet_of num).
Proof.
  unfold within_mask. rewrite m_bits_FlagSet_of. split.
  - apply Z.land_nonneg. right. apply VALID_MASK_range.
  - Z.bitblast.
Qed.

Lemma FlagSet_eq (a b : FlagSet E) : m_bits a = m_bits b -> a = b.
Proof. destruct a, b; simpl; intros ->; reflexivity. Qed.

Lemma VALID_MASK_testbit_lt (i : Z) :
  Z.testbit VALID_MASK i = true -> i < NUM_BITS /\ i < width Underlying.
Proof.
  intros Hi. pose proof NUM_BITS_spec as (Hn & Hlt & _).
  pose proof VALID_MASK_range as [Hm _].
  assert (i < NUM_BITS) by (apply (testbit_true_lt_pow2 VALID_MASK); [lia|exact Hi]).
  lia.
Qed.

Lemma wrap_land_mask (x : Z) :
  Z.land (wrap Underlying x) VALID_MASK = Z.land x VALID_MASK.
Proof.
  pose proof width_range as Hw. unfold wrap.
  apply Z.bits_inj'; intros i Hi. rewrite !Z.land_spec.
  destruct (Z.testbit VALID_MASK i) eqn:Hm; [|now rewrite !andb_false_r].
  apply VALID_MASK_testbit_lt in Hm as [_ Hlt].
  now rewrite Z.mod_pow2_bits_low by lia.
Qed.

Lemma land_lxor_mask (a b m : Z) :
  Z.land a m = a -> Z.land b m = b -> Z.land (Z.lxor a b) m = Z.lxor a b.
Proof.
  intros Ha Hb. apply Z.bits_inj'; intros i Hi.
  rewrite Z.land_spec, Z.lxor_spec.
  pose proof (land_subset_testbit a m i Ha). pose proof (land_subset_testbit b m i Hb).
  destruct (Z.testbit a i), (Z.testbit b i), (Z.testbit m i); simpl; auto;
    (discriminate || (exfalso; auto using diff_true_false; intuition discriminate)).
Qed.

(** The stored bits after each constructor and operator. *)
Lemma m_bits_FlagSet_of_land (num : Z) :
  m_bits (FlagSet_of num) = Z.land num VALID_MASK.
Proof. rewrite m_bits_FlagSet_of. apply wrap_land_mask. Qed.

Lemma m_bits_fromUnderlying (raw : Z) :
  m_bits (fromUnderlying raw) = Z.land raw VALID_MASK.
Proof.
  unfold fromUnderlying. rewrite m_bits_FlagSet_of_land, wrap_land_mask.
  Z.bitblast.
Qed.

Lemma m_bits_op_or (a b : FlagSet E) :
  within_mask a -> within_mask b ->
  m_bits (op_or a b) = Z.lor (m_bits a) (m_bits b).
Proof.
  intros Ha Hb. unfold op_or.
  rewrite m_bits_FlagSet_of_land, wrap_land_mask.
  rewrite !toUnderlying_wf by now apply within_mask_wf.
  destruct Ha as [_ Ha], Hb as [_ Hb].
  rewrite Z.land_lor_distr_l. now rewrite Ha, Hb.
Qed.

Lemma m_bits_op_and (a b : FlagSet E) :
  within_mask a -> within_mask b ->
  m_bits (op_and a b) = Z.land (m_bits a) (m_bits b).
Proof.
  intros Ha Hb. unfold op_and.
  rewrite m_bits_FlagSet_of_land, wrap_land_mask.
  rewrite !toUnderlying_wf by now apply within_mask_wf.
  destruct Hb as [_ Hb]. now rewrite <- Z.land_assoc, Hb.
Qed.

Lemma m_bits_op_xor (a b : FlagSet E) :
  within_mask a -> within_mask b ->
  m_bits (op_xor a b) = Z.lxor (m_bits a) (m_bits b).
Proof.
  intros Ha Hb. unfold op_xor.
  rewrite m_bits_FlagSet_of_land, wrap_land_mask.
  rewrite !toUnderlying_wf by now apply within_mask_wf.
  apply land_lxor_mask; [apply Ha|apply Hb].
Qed.

Lemma m_bits_op_not (a : FlagSet E) :
  within_mask a ->
  m_bits (op_not a) = Z.land (Z.lnot (m_bits a)) VALID_MASK.
Proof.
  intros Ha. unfold op_not.
  rewrite m_bits_FlagSet_of_land, wrap_land_mask.
  rewrite toUnderlying_wf by now apply within_mask_wf.
  rewrite <- Z.land_assoc, Z.land_diag.
  rewrite (Z.land_comm (bit_not _)), (Z.land_comm (Z.lnot _)).
  apply land_bit_not, VALID_MASK_range.
Qed.

Lemma within_mask_fromUnderlying (raw : Z) : within_mask (fromUnderlying raw).
Proof. apply within_mask_FlagSet_of. Qed.

(** C2: [fromUnderlying] is a total function into [FlagSet] (it has no
    error or exceptional outcome); what it stores reads back as
    [raw & VALID_MASK], feeding that back in gives the same flag set,
    and the flag set is valid. *)
Theorem fromUnderlying_masks (raw : Z) :
  toUnderlying (fromUnderlying raw) = Z.land raw VALID_MASK
  /\ fromUnderlying (toUnderlying (fromUnderlying raw)) = fromUnderlying raw
  /\ valid (fromUnderlying raw).
Proof.
  assert (Hu : toUnderlying (fromUnderlying raw) = Z.land raw VALID_MASK).
  { rewrite toUnderlying_wf by apply within_mask_wf, within_mask_fromUnderlying.
    apply m_bits_fromUnderlying. }
  split; [exact Hu|]. split.
  - apply FlagSet_eq. rewrite Hu, !m_bits_fromUnderlying.
    now rewrite <- Z.land_assoc, Z.land_diag.
  - apply valid_iff_within_mask, within_mask_fromUnderlying.
Qed.

(** C3: on a value with no bit outside [VALID_MASK], [fromEnum]
    succeeds with the flag set [fromUnderlying] builds from it, whose
    stored bits are the value itself; on a value with such a bit it
    fails with a [VALUE_ERROR]. *)
Theorem fromEnum_strict (v : Z) :
  representable v ->
  (Z.land v (Z.lnot VALID_MASK) = 0 ->
     fromEnum v = has_value (fromUnderlying v) /\ m_bits (fromUnderlying v) = v)
  /\ (Z.land v (Z.lnot VALID_MASK) <> 0 ->
        fromEnum v = unexpected (mkError "Invalid enum value for FlagSet" VALUE_ERROR)).
Proof.
  intros Hv. split; intros H; unfold fromEnum.
  - apply (isValid_true_iff v Hv) in H as Hval. rewrite Hval. cbn [negb].
    split.
    + unfold ok. f_equal. apply FlagSet_eq.
      now rewrite m_bits_FlagSet_of_land, m_bits_fromUnderlying.
    + rewrite m_bits_fromUnderlying. now apply land_lnot_zero_iff.
  - apply (isValid_false_iff v Hv) in H as ->. reflexivity.
Qed.

(** *** Closure of the operators *)

Lemma within_mask_op_or (a b : FlagSet E) : within_mask (op_or a b).
Proof. apply within_mask_FlagSet_of. Qed.

Lemma within_mask_op_and (a b : FlagSet E) : within_mask (op_and a b).
Proof. apply within_mask_FlagSet_of. Qed.

Lemma within_mask_op_xor (a b : FlagSet E) : within_mask (op_xor a b).
Proof. apply within_mask_FlagSet_of. Qed.

Lemma within_mask_op_not (a : FlagSet E) : within_mask (op_not a).
Proof. apply within_mask_FlagSet_of. Qed.

Lemma within_mask_or_assign (a b : FlagSet E) :
  within_mask a -> within_mask b -> within_mask (op_or_assign a b).
Proof.
  intros [Ha0 Ha] [Hb0 Hb]. split; cbn [op_or_assign m_bits Bitset.or_assign].
  - apply Z.lor_nonneg; auto.
  - rewrite Z.land_lor_distr_l. now rewrite Ha, Hb.
Qed.

Lemma within_mask_and_assign (a b : FlagSet E) :
  within_mask a -> within_mask b -> within_mask (op_and_assign a b).
Proof.
  intros [Ha0 Ha] [Hb0 Hb]. split; cbn [op_and_assign m_bits Bitset.and_assign].
  - apply Z.land_nonneg; auto.
  - now rewrite <- Z.land_assoc, Hb.
Qed.

Lemma within_mask_xor_assign (a b : FlagSet E) :
  within_mask a -> within_mask b -> within_mask (op_xor_assign a b).
Proof.
  intros [Ha0 Ha] [Hb0 Hb]. split; cbn [op_xor_assign m_bits Bitset.xor_assign].
  - apply Z.lxor_nonneg; tauto.
  - now apply land_lxor_mask.
Qed.

Ltac within_mask_auto :=
  auto using within_mask_op_or, within_mask_op_and, within_mask_op_xor,
    within_mask_op_not, within_mask_fromUnderlying.

Ltac flagset_bits :=
  apply FlagSet_eq;
  repeat first
    [ rewrite m_bits_op_or by within_mask_auto
    | rewrite m_bits_op_and by within_mask_auto
    | rewrite m_bits_op_xor by within_mask_auto
    | rewrite m_bits_op_not by within_mask_auto
    | rewrite m_bits_fromUnderlying ].

(** C5: on valid flag sets the four operators give valid flag sets,
    and they obey the laws of a Boolean algebra whose top element is
    [fromUnderlying( VALID_MASK )] and whose bottom is the empty set:
    double complement, identity, commutativity, associativity,
    distributivity, complementation and De Morgan. *)
Theorem operators_closed_boolean (a b c : FlagSet E) :
  valid a -> valid b -> valid c ->
  (valid (op_or a b) /\ valid (op_and a b) /\ valid (op_xor a b) /\ valid (op_not a))
  /\ (isValid_self (op_or a b) = true /\ isValid_self (op_and a b) = true
      /\ isValid_self (op_xor a b) = true /\ isValid_self (op_not a) = true)
  /\ op_not (op_not a) = a
  /\ op_and a (fromUnderlying VALID_MASK) = a
  /\ op_or a FlagSet_default = a
  /\ op_or a b = op_or b a
  /\ op_and a b = op_and b a
  /\ op_xor a b = op_xor b a
  /\ op_or (op_or a b) c = op_or a (op_or b c)
  /\ op_and (op_and a b) c = op_and a (op_and b c)
  /\ op_and a (op_or b c) = op_or (op_and a b) (op_and a c)
  /\ op_or a (op_and b c) = op_and (op_or a b) (op_or a c)
  /\ op_or a (op_not a) = fromUnderlying VALID_MASK
  /\ op_and a (op_not a) = FlagSet_default
  /\ op_not (op_or a b) = op_and (op_not a) (op_not b)
  /\ op_not (op_and a b) = op_or (op_not a) (op_not b)
  /\ op_xor a b = op_and (op_or a b) (op_not (op_and a b)).
Proof.
  intros Ha Hb Hc.
  apply valid_iff_within_mask in Ha, Hb, Hc.
  assert (Hd : within_mask (FlagSet_default (E := E))).
  { unfold within_mask, FlagSet_default, Bitset.empty. cbn [m_bits].
    split; [lia|apply Z.land_0_l]. }
  split; [repeat split; apply valid_iff_within_mask; within_mask_auto|].
  split; [repeat split; apply valid_iff_within_mask; within_mask_auto|].
  assert (Hbit : forall (x : FlagSet E) i, within_mask x ->
                   Z.testbit (m_bits x) i = true -> Z.testbit VALID_MASK i = true)
    by (intros x i [_ Hx]; now apply land_subset_testbit).
  repeat split; flagset_bits; try reflexivity;
    apply Z.bits_inj'; intros i Hi;
    pose proof (Hbit _ i Ha); pose proof (Hbit _ i Hb); pose proof (Hbit _ i Hc);
    unfold FlagSet_default, Bitset.empty; cbn [m_bits];
    repeat rewrite ?Z.land_spec, ?Z.lor_spec, ?Z.lxor_spec, ?Z.lnot_spec,
      ?Z.testbit_0_l by assumption;
    destruct (Z.testbit (m_bits a) i), (Z.testbit (m_bits b) i),
      (Z.testbit (m_bits c) i), (Z.testbit VALID_MASK i);
    simpl; auto; exfalso; intuition discriminate.
Qed.

(** *** Single flag operations *)

Lemma single_flag_position (num : Z) :
  isValid num = true -> wrap Underlying num <> 0 ->
  let p := bitPosition (wrap Underlying num) in
  0 <= p < NUM_BITS
  /\ Z.testbit (wrap Underlying num) p = true
  /\ (forall j, 0 <= j < p -> Z.testbit (wrap Underlying num) j = false)
  /\ Z.testbit VALID_MASK p = true.
Proof.
  intros Hval Hne p.
  pose proof (wrap_representable num) as Hrep.
  pose proof (bitPosition_spec _ Hrep Hne) as (Hr & Hset & Hlow).
  fold p in Hr, Hset, Hlow.
  rewrite <- isValid_wrap in Hval.
  pose proof (isValid_subset _ Hrep Hval) as Hsub.
  pose proof (land_subset_testbit _ _ p Hsub Hset) as Hm.
  apply VALID_MASK_testbit_lt in Hm as Hlt.
  repeat split; try assumption; lia.
Qed.

Lemma has_rejects (self : FlagSet E) (num : Z) :
  isValid num = false ->
  has self num = Returned (unexpected (mkError "Invalid enum value" VALUE_ERROR)).
Proof. intros H. unfold has. now rewrite H. Qed.

Lemma set_rejects (self : FlagSet E) (num : Z) :
  isValid num = false ->
  set self num = (Returned (unexpected (mkError "Invalid enum value" VALUE_ERROR)), self).
Proof. intros H. unfold set. now rewrite H. Qed.

Lemma clear_rejects (self : FlagSet E) (num : Z) :
  isValid num = false ->
  clear self num = (Returned (unexpected (mkError "Invalid enum value" VALUE_ERROR)), self).
Proof. intros H. unfold clear. now rewrite H. Qed.

Lemma toggle_rejects (self : FlagSet E) (num : Z) :
  isValid num = false ->
  toggle self num = (Returned (unexpected (mkError "Invalid enum value" VALUE_ERROR)), self).
Proof. intros H. unfold toggle. now rewrite H. Qed.

Lemma has_accepts (self : FlagSet E) (num : Z) :
  isValid num = true -> wrap Underlying num <> 0 ->
  has self num
  = Returned (has_value (Z.testbit (m_bits self) (bitPosition (wrap Underlying num)))).
Proof.
  intros Hval Hne. destruct (single_flag_position num Hval Hne) as (Hp & _).
  unfold has, Bitset.test. rewrite Hval. cbn [negb].
  destruct (Z.ltb_spec (bitPosition (wrap Underlying num)) NUM_BITS); [reflexivity|lia].
Qed.

Lemma set_accepts (self : FlagSet E) (num : Z) :
  isValid num = true -> wrap Underlying num <> 0 ->
  set self num
  = (Returned ok_void,
     @mkFlagSet E (Z.setbit (m_bits self) (bitPosition (wrap Underlying num)))).
Proof.
  intros Hval Hne. destruct (single_flag_position num Hval Hne) as (Hp & _).
  unfold set, Bitset.set. rewrite Hval. cbn [negb].
  destruct (Z.ltb_spec (bitPosition (wrap Underlying num)) NUM_BITS); [reflexivity|lia].
Qed.

Lemma clear_accepts (self : FlagSet E) (num : Z) :
  isValid num = true -> wrap Underlying num <> 0 ->
  clear self num
  = (Returned ok_void,
     @mkFlagSet E (Z.clearbit (m_bits self) (bitPosition (wrap Underlying num)))).
Proof.
  intros Hval Hne. destruct (single_flag_position num Hval Hne) as (Hp & _).
  unfold clear, Bitset.reset. rewrite Hval. cbn [negb].
  destruct (Z.ltb_spec (bitPosition (wrap Underlying num)) NUM_BITS); [reflexivity|lia].
Qed.

Lemma toggle_accepts (self : FlagSet E) (num : Z) :
  isValid num = true -> wrap Underlying num <> 0 ->
  toggle self num
  = (Returned ok_void,
     @mkFlagSet E (Z.lxor (m_bits self)
                    (Z.shiftl 1 (bitPosition (wrap Underlying num))))).
Proof.
  intros Hval Hne. destruct (single_flag_position num Hval Hne) as (Hp & _).
  unfold toggle, Bitset.flip. rewrite Hval. cbn [negb].
  destruct (Z.ltb_spec (bitPosition (wrap Underlying num)) NUM_BITS); [reflexivity|lia].
Qed.

(** A zero candidate passes validation; its position is the sentinel
    [NUM_BITS], which the bit vector refuses. *)
Lemma zero_passes_validation : isValid 0 = true.
Proof. unfold isValid, wrap. now rewrite Z.mod_0_l, Z.land_0_l by
    (pose proof width_range; apply Z.pow_nonzero; lia). Qed.

Lemma zero_candidate_throws (self : FlagSet E) (num : Z) :
  isValid num = true -> wrap Underlying num = 0 ->
  has self num = Thrown out_of_range
  /\ set self num = (Thrown out_of_range, self)
  /\ clear self num = (Thrown out_of_range, self)
  /\ toggle self num = (Thrown out_of_range, self).
Proof.
  intros Hval Hz.
  unfold has, set, clear, toggle, Bitset.test, Bitset.set, Bitset.reset, Bitset.flip.
  rewrite Hval, Hz, bitPosition_zero, Z.ltb_irrefl. cbn. auto.
Qed.

(** C1, as the code has it: a candidate with a bit outside
    [VALID_MASK] makes each of [has], [set], [clear] and [toggle] fail
    with a [VALUE_ERROR] and leaves the object alone.  A non-zero
    candidate inside the mask is accepted, a legal single flag as much
    as a combination of several: the call acts on the lowest set bit
    of the candidate, [has] answering whether that bit is stored, the
    other three setting, clearing or flipping it and returning success
    without payload.  For a single flag [2^k] that bit is the flag's
    own. *)
Theorem single_flag_operations (self : FlagSet E) (num : Z) :
  representable num ->
  (Z.land num (Z.lnot VALID_MASK) <> 0 ->
     has self num = Returned (unexpected (mkError "Invalid enum value" VALUE_ERROR))
     /\ set self num
        = (Returned (unexpected (mkError "Invalid enum value" VALUE_ERROR)), self)
     /\ clear self num
        = (Returned (unexpected (mkError "Invalid enum value" VALUE_ERROR)), self)
     /\ toggle self num
        = (Returned (unexpected (mkError "Invalid enum value" VALUE_ERROR)), self))
  /\ (Z.land num (Z.lnot VALID_MASK) = 0 -> num <> 0 ->
      let p := bitPosition num in
      0 <= p < NUM_BITS
      /\ Z.testbit num p = true
      /\ (forall j, 0 <= j < p -> Z.testbit num j = false)
      /\ has self num = Returned (has_value (Z.testbit (m_bits self) p))
      /\ set self num = (Returned ok_void, @mkFlagSet E (Z.setbit (m_bits self) p))
      /\ clear self num = (Returned ok_void, @mkFlagSet E (Z.clearbit (m_bits self) p))
      /\ toggle self num
         = (Returned ok_void, @mkFlagSet E (Z.lxor (m_bits self) (Z.shiftl 1 p))))
  /\ (forall k, 0 <= k -> num = 2 ^ k -> Z.land num (Z.lnot VALID_MASK) = 0 ->
      bitPosition num = k
      /\ has self num = Returned (has_value (Z.testbit (m_bits self) k))
      /\ set self num = (Returned ok_void, @mkFlagSet E (Z.lor (m_bits self) num))
      /\ clear self num = (Returned ok_void, @mkFlagSet E (Z.ldiff (m_bits self) num))
      /\ toggle self num = (Returned ok_void, @mkFlagSet E (Z.lxor (m_bits self) num))).
Proof.
  intros Hrep.
  assert (Hacc : Z.land num (Z.lnot VALID_MASK) = 0 -> num <> 0 ->
                 let p := bitPosition num in
                 0 <= p < NUM_BITS
                 /\ Z.testbit num p = true
                 /\ (forall j, 0 <= j < p -> Z.testbit num j = false)
                 /\ has self num = Returned (has_value (Z.testbit (m_bits self) p))
                 /\ set self num
                    = (Returned ok_void, @mkFlagSet E (Z.setbit (m_bits self) p))
                 /\ clear self num
                    = (Returned ok_void, @mkFlagSet E (Z.clearbit (m_bits self) p))
                 /\ toggle self num
                    = (Returned ok_void,
                       @mkFlagSet E (Z.lxor (m_bits self) (Z.shiftl 1 p)))).
  { intros Hin Hne p. apply (isValid_true_iff num Hrep) in Hin.
    assert (Hw : wrap Underlying num = num) by now apply wrap_small.
    assert (Hne' : wrap Underlying num <> 0) by now rewrite Hw.
    pose proof (single_flag_position num Hin Hne') as (Hp & Hset & Hlow & _).
    pose proof (has_accepts self num Hin Hne') as Hhas.
    pose proof (set_accepts self num Hin Hne') as Hs.
    pose proof (clear_accepts self num Hin Hne') as Hc.
    pose proof (toggle_accepts self num Hin Hne') as Ht.
    rewrite Hw in *. repeat split; assumption || apply Hp. }
  split; [|split].
  - intros Hout. apply (isValid_false_iff num Hrep) in Hout.
    auto using has_rejects, set_rejects, clear_rejects, toggle_rejects.
  - exact Hacc.
  - intros k Hk Hnum Hin.
    assert (Hne : num <> 0) by (rewrite Hnum; apply Z.pow_nonzero; lia).
    destruct (Hacc Hin Hne) as (Hp & Hset & _ & Hhas & Hs & Hc & Ht).
    assert (Hpk : bitPosition num = k).
    { rewrite Hnum in Hset at 1. rewrite Z.pow2_bits_eqb in Hset by lia.
      apply Z.eqb_eq in Hset. congruence. }
    rewrite Hpk in Hhas, Hs, Hc, Ht.
    unfold Z.setbit, Z.clearbit in *. rewrite Z.shiftl_1_l, <- Hnum in *.
    auto.
Qed.

(** C10: a candidate that fails validation makes [fromEnum], [has],
    [set], [clear] and [toggle] return their [VALUE_ERROR] with the
    object as it was; and whenever one of the three mutators does not
    return success, be it with an error value or otherwise, the object
    is as it was. *)
Theorem validation_failure_is_atomic (self : FlagSet E) (num : Z) :
  isValid num = false ->
  fromEnum num = unexpected (mkError "Invalid enum value for FlagSet" VALUE_ERROR)
  /\ has self num = Returned (unexpected (mkError "Invalid enum value" VALUE_ERROR))
  /\ set self num
     = (Returned (unexpected (mkError "Invalid enum value" VALUE_ERROR)), self)
  /\ clear self num
     = (Returned (unexpected (mkError "Invalid enum value" VALUE_ERROR)), self)
  /\ toggle self num
     = (Returned (unexpected (mkError "Invalid enum value" VALUE_ERROR)), self)
  /\ (forall (v : Z) (out : Exec Status) (self' : FlagSet E),
         set self v = (out, self') \/ clear self v = (out, self')
         \/ toggle self v = (out, self') ->
         out <> Returned ok_void -> self' = self)
  /\ (forall (v : Z) (e : Error) (self' : FlagSet E),
         set self v = (Returned (unexpected e), self')
         \/ clear self v = (Returned (unexpected e), self')
         \/ toggle self v = (Returned (unexpected e), self') ->
         isValid v = false /\ type e = VALUE_ERROR /\ self' = self).
Proof.
  intros Hinv.
  split; [unfold fromEnum; now rewrite Hinv|].
  split; [now apply has_rejects|].
  split; [now apply set_rejects|].
  split; [now apply clear_rejects|].
  split; [now apply toggle_rejects|].
  split.
  - intros v out self' H Hout.
    unfold set, clear, toggle, Bitset.set, Bitset.reset, Bitset.flip in H.
    destruct (isValid v); cbn [negb] in H;
      destruct (bitPosition (wrap Underlying v) <? NUM_BITS);
      destruct H as [H|[H|H]]; inversion H; subst; congruence.
  - intros v e self' H.
    unfold set, clear, toggle, Bitset.set, Bitset.reset, Bitset.flip in H.
    destruct (isValid v); cbn [negb] in H;
      destruct (bitPosition (wrap Underlying v) <? NUM_BITS);
      destruct H as [H|[H|H]]; inversion H; subst; auto.
Qed.

(** *** The mutators keep every stored bit inside the mask *)

Lemma single_bit_within_mask (p : Z) :
  0 <= p -> Z.testbit VALID_MASK p = true ->
  Z.land (Z.shiftl 1 p) VALID_MASK = Z.shiftl 1 p.
Proof.
  intros Hp Hm. rewrite Z.shiftl_1_l.
  apply Z.bits_inj'; intros i Hi. rewrite Z.land_spec, Z.pow2_bits_eqb by lia.
  destruct (Z.eqb_spec p i) as [->|_]; [now rewrite Hm|reflexivity].
Qed.

Lemma within_mask_setbit (self : FlagSet E) (p : Z) :
  within_mask self -> 0 <= p -> Z.testbit VALID_MASK p = true ->
  within_mask (@mkFlagSet E (Z.setbit (m_bits self) p)).
Proof.
  intros [H0 Hs] Hp Hm. unfold within_mask, Z.setbit. cbn [m_bits]. split.
  - apply Z.lor_nonneg. split; [exact H0|]. apply Z.shiftl_nonneg. lia.
  - rewrite Z.land_lor_distr_l, Hs. now rewrite single_bit_within_mask.
Qed.

Lemma within_mask_clearbit (self : FlagSet E) (p : Z) :
  within_mask self -> within_mask (@mkFlagSet E (Z.clearbit (m_bits self) p)).
Proof.
  intros [H0 Hs]. unfold within_mask, Z.clearbit. cbn [m_bits]. split.
  - apply Z.ldiff_nonneg. now left.
  - rewrite <- Hs at 2. Z.bitblast.
Qed.

Lemma within_mask_flipbit (self : FlagSet E) (p : Z) :
  within_mask self -> 0 <= p -> Z.testbit VALID_MASK p = true ->
  within_mask (@mkFlagSet E (Z.lxor (m_bits self) (Z.shiftl 1 p))).
Proof.
  intros [H0 Hs] Hp Hm. unfold within_mask. cbn [m_bits]. split.
  - apply Z.lxor_nonneg. split; intros _; [apply Z.shiftl_nonneg; lia|exact H0].
  - apply land_lxor_mask; [exact Hs|now apply single_bit_within_mask].
Qed.

Lemma candidate_cases (num : Z) :
  isValid num = false
  \/ (isValid num = true /\ wrap Underlying num = 0)
  \/ (isValid num = true /\ wrap Underlying num <> 0).
Proof.
  destruct (isValid num); [|now left].
  destruct (Z.eq_dec (wrap Underlying num) 0); auto.
Qed.

Lemma within_mask_set (self : FlagSet E) (num : Z) :
  within_mask self -> within_mask (snd (set self num)).
Proof.
  intros Hs. destruct (candidate_cases num) as [Hr|[[Hv Hz]|[Hv Hne]]].
  - now rewrite set_rejects.
  - destruct (zero_candidate_throws self num Hv Hz) as (_ & -> & _). exact Hs.
  - rewrite set_accepts by assumption.
    destruct (single_flag_position num Hv Hne) as (Hp & _ & _ & Hm).
    apply within_mask_setbit; [exact Hs|lia|exact Hm].
Qed.

Lemma within_mask_clear (self : FlagSet E) (num : Z) :
  within_mask self -> within_mask (snd (clear self num)).
Proof.
  intros Hs. destruct (candidate_cases num) as [Hr|[[Hv Hz]|[Hv Hne]]].
  - now rewrite clear_rejects.
  - destruct (zero_candidate_throws self num Hv Hz) as (_ & _ & -> & _). exact Hs.
  - rewrite clear_accepts by assumption. now apply within_mask_clearbit.
Qed.

Lemma within_mask_toggle (self : FlagSet E) (num : Z) :
  within_mask self -> within_mask (snd (toggle self num)).
Proof.
  intros Hs. destruct (candidate_cases num) as [Hr|[[Hv Hz]|[Hv Hne]]].
  - now rewrite toggle_rejects.
  - destruct (zero_candidate_throws self num Hv Hz) as (_ & _ & _ & ->). exact Hs.
  - rewrite toggle_accepts by assumption.
    destruct (single_flag_position num Hv Hne) as (Hp & _ & _ & Hm).
    apply within_mask_flipbit; [exact Hs|lia|exact Hm].
Qed.

Lemma of_ullong_VALID_MASK : Bitset.of_ullong NUM_BITS VALID_MASK = VALID_MASK.
Proof.
  apply of_ullong_small. pose proof NUM_BITS_spec as (_ & Hlt & _).
  pose proof VALID_MASK_range. lia.
Qed.

Lemma within_mask_default : within_mask (FlagSet_default (E := E)).
Proof.
  unfold within_mask, FlagSet_default, Bitset.empty. cbn [m_bits].
  split; [lia|apply Z.land_0_l].
Qed.

Lemma within_mask_setAll (self : FlagSet E) : within_mask (snd (setAll self)).
Proof.
  unfold within_mask, setAll. cbn [snd m_bits]. rewrite of_ullong_VALID_MASK.
  split; [apply VALID_MASK_range|apply Z.land_diag].
Qed.

Lemma within_mask_clearAll (self : FlagSet E) : within_mask (snd (clearAll self)).
Proof. apply within_mask_default. Qed.

Lemma within_mask_toggleAll (self : FlagSet E) :
  within_mask self -> within_mask (snd (toggleAll self)).
Proof.
  intros [H0 Hs]. unfold within_mask, toggleAll, Bitset.xor_assign. cbn [snd m_bits].
  rewrite of_ullong_VALID_MASK. split.
  - apply Z.lxor_nonneg. split; intros _; [apply VALID_MASK_range|exact H0].
  - apply land_lxor_mask; [exact Hs|apply Z.land_diag].
Qed.

Lemma reachable_within_mask (self : FlagSet E) : reachable self -> within_mask self.
Proof.
  induction 1 as [ | num | raw | num fs Hfrom | | | | | | | | | | | | | ];
    auto using within_mask_default, within_mask_FlagSet_of, within_mask_fromUnderlying,
      within_mask_set, within_mask_clear, within_mask_toggle, within_mask_setAll,
      within_mask_clearAll, within_mask_toggleAll, within_mask_op_or,
      within_mask_op_and, within_mask_op_xor, within_mask_op_not,
      within_mask_or_assign, within_mask_and_assign, within_mask_xor_assign.
  unfold fromEnum in Hfrom. destruct (isValid num); cbn [negb] in Hfrom;
    inversion Hfrom; subst. apply within_mask_FlagSet_of.
Qed.

(** C4: every flag set the interface can produce holds no bit outside
    [VALID_MASK]: [toUnderlying() & ~VALID_MASK] is zero and the
    instance [isValid()] answers [true]; it is also a well-formed
    [NUM_BITS]-bit vector. *)
Theorem reachable_is_valid (self : FlagSet E) :
  reachable self ->
  Z.land (toUnderlying self) (bit_not VALID_MASK) = 0
  /\ Z.land (toUnderlying self) (Z.lnot VALID_MASK) = 0
  /\ isValid_self self = true
  /\ Bitset.wf NUM_BITS (m_bits self).
Proof.
  intros Hreach. apply reachable_within_mask, valid_iff_within_mask in Hreach.
  destruct Hreach as [Hwf Hval].
  assert (H : Z.land (toUnderlying self) (bit_not VALID_MASK) = 0)
    by now apply Z.eqb_eq.
  split; [exact H|]. split; [|split; assumption].
  now rewrite <- (land_bit_not _ _ (toUnderlying_representable self)).
Qed.

(** *** The two traversals *)

Lemma test_in_range (b : Bitset.bitset NUM_BITS) (i : Z) :
  i < NUM_BITS -> Bitset.test NUM_BITS b i = Returned (Z.testbit b i).
Proof. intros Hi. unfold Bitset.test. now apply Z.ltb_lt in Hi as ->. Qed.

Lemma indices_app (n1 n2 : nat) :
  forall i, Bitset.indices i (n1 + n2)
            = Bitset.indices i n1 ++ Bitset.indices (i + Z.of_nat n1) n2.
Proof.
  induction n1 as [|n1 IH]; intros i; cbn [Bitset.indices Nat.add app].
  - now rewrite Z.add_0_r.
  - rewrite IH. do 3 f_equal. lia.
Qed.

Lemma indices_bounds (n : nat) :
  forall i j, In j (Bitset.indices i n) -> i <= j < i + Z.of_nat n.
Proof.
  induction n as [|n IH]; intros i j Hin; cbn [Bitset.indices] in Hin.
  - contradiction.
  - destruct Hin as [<-|Hin]; [lia|]. apply IH in Hin. lia.
Qed.

Lemma fold_flags_app {S : Type} (self : FlagSet E) (func : Z -> S -> S) (l1 l2 : list Z) :
  forall s, fold_flags self func (l1 ++ l2) s
            = s' <- fold_flags self func l1 s ;; fold_flags self func l2 s'.
Proof.
  induction l1 as [|i l1 IH]; intros s; cbn [fold_flags app]; [reflexivity|].
  destruct (Z.testbit (m_bits self) i); [|apply IH].
  destruct (flag_at i); cbn [bind]; auto.
Qed.

Lemma fold_flags_unset {S : Type} (self : FlagSet E) (func : Z -> S -> S) (l : list Z) :
  (forall j, In j l -> Z.testbit (m_bits self) j = false) ->
  forall s, fold_flags self func l s = Returned s.
Proof.
  induction l as [|i l IH]; intros Hl s; cbn [fold_flags]; [reflexivity|].
  rewrite (Hl i) by now left. apply IH. intros j Hj. apply Hl. now right.
Qed.

(** Positions without a stored bit contribute nothing. *)
Lemma fold_flags_skip {S : Type} (self : FlagSet E) (func : Z -> S -> S)
      (i r : Z) (n m : nat) (s : S) :
  i <= r -> r + Z.of_nat m = i + Z.of_nat n ->
  (forall j, i <= j < r -> Z.testbit (m_bits self) j = false) ->
  fold_flags self func (Bitset.indices i n) s
  = fold_flags self func (Bitset.indices r m) s.
Proof.
  intros Hir Hlen Hlow.
  replace n with (Z.to_nat (r - i) + m)%nat by lia.
  rewrite indices_app, fold_flags_app, fold_flags_unset.
  - cbn [bind]. do 2 f_equal. lia.
  - intros j Hj. apply indices_bounds in Hj. apply Hlow. lia.
Qed.

Lemma forEach_loop_fold {S : Type} (self : FlagSet E) (func : Z -> S -> S) (n : nat) :
  forall (fuel : nat) (i : Z) (s : S),
    i + Z.of_nat n = NUM_BITS -> (n < fuel)%nat ->
    forEach_loop fuel self func i s = fold_flags self func (Bitset.indices i n) s.
Proof.
  induction n as [|n IH]; intros [|fuel] i s Hi Hf; try lia;
    cbn [forEach_loop Bitset.indices fold_flags].
  - destruct (Z.ltb_spec i NUM_BITS); [lia|reflexivity].
  - destruct (Z.ltb_spec i NUM_BITS); [|lia].
    rewrite test_in_range by lia. cbn [bind].
    destruct (Z.testbit (m_bits self) i).
    + destruct (flag_at i); cbn [bind]; try reflexivity. apply IH; lia.
    + apply IH; lia.
Qed.

Lemma advance_loop_spec (b : Bitset.bitset NUM_BITS) (fuel : nat) :
  forall i : Z,
    i <= NUM_BITS -> NUM_BITS - i < Z.of_nat fuel ->
    exists r, advance_loop fuel b i = Returned r
              /\ i <= r <= NUM_BITS
              /\ (r < NUM_BITS -> Z.testbit b r = true)
              /\ (forall j, i <= j < r -> Z.testbit b j = false).
Proof.
  induction fuel as [|fuel IH]; intros i Hi Hf; [lia|].
  cbn [advance_loop]. destruct (Z.ltb_spec i NUM_BITS) as [Hlt|Hge].
  - rewrite test_in_range by lia. cbn [bind].
    destruct (Z.testbit b i) eqn:Hb; cbn [negb].
    + exists i. repeat split; auto; lia.
    + destruct (IH (i + 1) ltac:(lia) ltac:(lia)) as (r & Hr & Hrange & Hset & Hlow).
      exists r. repeat split; auto; try lia.
      intros j Hj. destruct (Z.eq_dec j i) as [->|]; [exact Hb|apply Hlow; lia].
  - exists i. repeat split; auto; lia.
Qed.

Lemma range_for_loop_fold {S : Type} (self : FlagSet E) (body : Z -> S -> S) (fuel : nat) :
  forall (r : Z) (n : nat) (s : S),
    0 <= r -> r + Z.of_nat n = NUM_BITS -> (n < fuel)%nat ->
    (r < NUM_BITS -> Z.testbit (m_bits self) r = true) ->
    range_for_loop fuel (mkIterator (m_bits self) r) (mkIterator (m_bits self) NUM_BITS)
      body s
    = fold_flags self body (Bitset.indices r n) s.
Proof.
  induction fuel as [|fuel IH]; intros r n s Hr Hn Hf Hset; [lia|].
  cbn [range_for_loop]. unfold Iterator_neq, Iterator_deref. cbn [m_index].
  destruct (Z.eqb_spec r NUM_BITS) as [Heq|Hne]; cbn [negb].
  - replace n with O by lia. reflexivity.
  - destruct n as [|n]; [lia|]. cbn [Bitset.indices fold_flags].
    rewrite Hset by lia.
    destruct (flag_at r) as [flag| | |]; cbn [bind]; try reflexivity.
    unfold Iterator_incr, advance. cbn [it_bits m_index].
    destruct (advance_loop_spec (m_bits self) (Datatypes.S (Z.to_nat NUM_BITS)) (r + 1))
      as (r' & -> & Hrange & Hset' & Hlow); [lia|lia|].
    cbn [bind].
    rewrite (IH r' (Z.to_nat (NUM_BITS - r')) (body flag s)) by (auto; lia).
    symmetry. apply fold_flags_skip; auto; lia.
Qed.

Lemma NUM_BITS_nonneg : 0 <= NUM_BITS.
Proof. apply NUM_BITS_spec. Qed.

Lemma forEach_fold {S : Type} (self : FlagSet E) (func : Z -> S -> S) (s : S) :
  forEach self func s = fold_flags self func (Bitset.positions NUM_BITS) s.
Proof.
  pose proof NUM_BITS_nonneg. unfold forEach, Bitset.positions.
  apply forEach_loop_fold; lia.
Qed.

Lemma range_for_fold {S : Type} (self : FlagSet E) (body : Z -> S -> S) (s : S) :
  range_for self body s = fold_flags self body (Bitset.positions NUM_BITS) s.
Proof.
  pose proof NUM_BITS_nonneg as HN.
  unfold range_for, begin_, end_, Iterator_new, advance, Bitset.positions.
  cbn [it_bits m_index].
  destruct (advance_loop_spec (m_bits self) (Datatypes.S (Z.to_nat NUM_BITS)) 0)
    as (r & -> & Hrange & Hset & Hlow); [lia|lia|].
  destruct (advance_loop_spec (m_bits self) (Datatypes.S (Z.to_nat NUM_BITS)) NUM_BITS)
    as (e & -> & Herange & _); [lia|lia|].
  replace e with NUM_BITS by lia. cbn [bind].
  rewrite (range_for_loop_fold self body _ r (Z.to_nat (NUM_BITS - r))) by (auto; lia).
  symmetry. apply fold_flags_skip; auto; lia.
Qed.

(** Iteration and [forEach] are the same traversal: with any body and
    any starting state they end alike, in particular they see the same
    flags in the same order. *)
Lemma range_for_forEach {S : Type} (self : FlagSet E) (body : Z -> S -> S) (s : S) :
  range_for self body s = forEach self body s.
Proof. now rewrite range_for_fold, forEach_fold. Qed.

Lemma iterated_visited (self : FlagSet E) : iterated self = visited self.
Proof. apply range_for_forEach. Qed.

(** [static_cast< Enum >( 1 << i )] is the flag of position [i] as long
    as the shift stays inside a positive [int], or the enumeration is
    no wider than an [int]. *)
Lemma wrap_to_int (z : Z) :
  width Underlying <= INT_BITS -> wrap Underlying (to_int z) = wrap Underlying z.
Proof.
  intros Hw. pose proof width_range as Hr. unfold wrap, to_int, INT_BITS in *.
  set (w := width Underlying) in *.
  assert (Hsplit : 2 ^ 32 = 2 ^ (32 - w) * 2 ^ w).
  { rewrite <- Z.pow_add_r by lia. f_equal. lia. }
  rewrite (Z.mod_eq (z + 2 ^ (32 - 1)) (2 ^ 32)) by lia.
  replace (z + 2 ^ (32 - 1) - 2 ^ 32 * ((z + 2 ^ (32 - 1)) / 2 ^ 32) - 2 ^ (32 - 1))
    with (z + (- ((z + 2 ^ (32 - 1)) / 2 ^ 32) * 2 ^ (32 - w)) * 2 ^ w)
    by (rewrite Hsplit; ring).
  apply Z.mod_add. apply Z.pow_nonzero; lia.
Qed.

Lemma to_int_small (z : Z) : 0 <= z < 2 ^ (INT_BITS - 1) -> to_int z = z.
Proof.
  unfold to_int, INT_BITS. intros Hz. rewrite Z.mod_small; lia.
Qed.

Lemma flag_at_pow2 (i : Z) :
  0 <= i < NUM_BITS ->
  i < INT_BITS - 1 \/ width Underlying <= INT_BITS ->
  flag_at i = Returned (2 ^ i).
Proof.
  intros Hi Hc. pose proof NUM_BITS_spec as (Hn & _). pose proof width_range as Hw.
  assert (Hrep : wrap Underlying (2 ^ i) = 2 ^ i).
  { apply wrap_small. split; [apply Z.pow_nonneg; lia|apply Z.pow_lt_mono_r; lia]. }
  unfold flag_at, int_shl, INT_BITS in *.
  destruct (Z.leb_spec 0 i); [|lia]. destruct (Z.ltb_spec i 32); [|lia].
  cbn [andb bind]. rewrite Z.mul_1_l. f_equal.
  destruct Hc as [Hlt|Hle].
  - rewrite to_int_small; [exact Hrep|].
    unfold INT_BITS. split; [apply Z.pow_nonneg; lia|apply Z.pow_lt_mono_r; lia].
  - now rewrite wrap_to_int.
Qed.

Lemma fold_flags_collect (self : FlagSet E) (l : list Z) :
  NUM_BITS <= INT_BITS - 1 \/ width Underlying <= INT_BITS ->
  (forall j, In j l -> 0 <= j < NUM_BITS) ->
  forall seen,
    fold_flags self collect l seen
    = Returned (seen ++ map (fun i => 2 ^ i) (filter (Z.testbit (m_bits self)) l)).
Proof.
  intros Hc. induction l as [|i l IH]; intros Hl seen; cbn [fold_flags filter map].
  - now rewrite app_nil_r.
  - assert (Hi : 0 <= i < NUM_BITS) by (apply Hl; now left).
    assert (Hl' : forall j, In j l -> 0 <= j < NUM_BITS) by (intros j Hj; apply Hl; now right).
    destruct (Z.testbit (m_bits self) i); [|now apply IH].
    rewrite (flag_at_pow2 i Hi) by (destruct Hc; [left|right]; lia).
    cbn [bind map]. rewrite IH by assumption.
    unfold collect. now rewrite <- app_assoc.
Qed.

Lemma positions_bounds (j : Z) :
  In j (Bitset.positions NUM_BITS) -> 0 <= j < NUM_BITS.
Proof.
  pose proof NUM_BITS_nonneg. unfold Bitset.positions. intros Hj.
  apply indices_bounds in Hj. lia.
Qed.

Lemma indices_length (n : nat) : forall i, List.length (Bitset.indices i n) = n.
Proof. induction n as [|n IH]; intros i; cbn [Bitset.indices List.length]; auto. Qed.

Lemma stored_flags_length (self : FlagSet E) :
  Z.of_nat (List.length (stored_flags self)) <= NUM_BITS.
Proof.
  pose proof NUM_BITS_nonneg. unfold stored_flags.
  rewrite length_map.
  pose proof (filter_length_le (Z.testbit (m_bits self)) (Bitset.positions NUM_BITS)) as Hle.
  unfold Bitset.positions in *. rewrite indices_length in Hle. lia.
Qed.

(** For an enumeration of at most 31 flag positions, or one whose
    underlying type is no wider than [int], both traversals return, and
    what they produce is the stored single-bit flags, lowest position
    first, at most [NUM_BITS] of them. *)
Lemma iterated_stored_flags (self : FlagSet E) :
  NUM_BITS <= INT_BITS - 1 \/ width Underlying <= INT_BITS ->
  iterated self = Returned (stored_flags self)
  /\ visited self = Returned (stored_flags self)
  /\ Z.of_nat (List.length (stored_flags self)) <= NUM_BITS.
Proof.
  intros Hc. rewrite iterated_visited. unfold visited.
  rewrite forEach_fold, fold_flags_collect by auto using positions_bounds.
  auto using stored_flags_length.
Qed.

End FlagSetFacts.

(* ===================================================================== *)
(** * The properties at the enumerations of the test suite *)
(* ===================================================================== *)

Lemma single_flag_operations_witness :
  representable (E := Permissions) WRITE
  /\ (bitPosition (E := Permissions) WRITE = 1
      /\ has (FlagSet_of (E := Permissions) READ) WRITE
         = Returned (has_value (Z.testbit (m_bits (FlagSet_of (E := Permissions) READ)) 1))
      /\ set (FlagSet_of (E := Permissions) READ) WRITE
         = (Returned ok_void,
            @mkFlagSet Permissions (Z.lor (m_bits (FlagSet_of (E := Permissions) READ)) WRITE))
      /\ clear (FlagSet_of (E := Permissions) READ) WRITE
         = (Returned ok_void,
            @mkFlagSet Permissions (Z.ldiff (m_bits (FlagSet_of (E := Permissions) READ)) WRITE))
      /\ toggle (FlagSet_of (E := Permissions) READ) WRITE
         = (Returned ok_void,
            @mkFlagSet Permissions (Z.lxor (m_bits (FlagSet_of (E := Permissions) READ)) WRITE))).
Proof.
  assert (Hrep : representable (E := Permissions) WRITE)
    by (unfold representable, WRITE; simpl; lia).
  split; [exact Hrep|].
  destruct (single_flag_operations (E := Permissions) (FlagSet_of READ) WRITE Hrep)
    as (_ & _ & Hsingle).
  apply (Hsingle 1); [lia|reflexivity|reflexivity].
Defined.

(** C1 as stated fails on [Permissions] ([ALL = 7]): the two-bit candidate
    [READ | WRITE] is not refused, [has] answers for [READ] and [set]
    stores [READ]; the zero candidate is not answered with an error
    value either, the bit vector throws [std::out_of_range]. *)
Lemma single_flag_claim_counterexample :
  representable (E := Permissions) 3
  /\ popcount 3 = 2
  /\ has (FlagSet_of (E := Permissions) READ) 3 = Returned (has_value true)
  /\ set (FlagSet_default (E := Permissions)) 3 = (Returned ok_void, FlagSet_of READ)
  /\ ~ (exists e, has (FlagSet_of (E := Permissions) READ) 3 = Returned (unexpected e))
  /\ ~ (exists e, fst (set (FlagSet_default (E := Permissions)) 3) = Returned (unexpected e))
  /\ has (FlagSet_of (E := Permissions) READ) 0 = Thrown out_of_range
  /\ ~ (exists e, has (FlagSet_of (E := Permissions) READ) 0 = Returned (unexpected e)).
Proof.
  split; [unfold representable; simpl; lia|].
  split; [reflexivity|].
  split; [reflexivity|].
  split; [reflexivity|].
  split; [intros [e He]; vm_compute in He; discriminate He|].
  split; [intros [e He]; vm_compute in He; discriminate He|].
  split; [reflexivity|].
  intros [e He]; vm_compute in He; discriminate He.
Qed.

Lemma fromEnum_strict_witness :
  representable (E := Permissions) READ
  /\ fromEnum (E := Permissions) READ = has_value (fromUnderlying READ)
  /\ m_bits (fromUnderlying (E := Permissions) READ) = READ
  /\ fromEnum (E := Permissions) 16
     = unexpected (mkError "Invalid enum value for FlagSet" VALUE_ERROR).
Proof.
  assert (Hrep : representable (E := Permissions) READ)
    by (unfold representable, READ; simpl; lia).
  assert (Hrep16 : representable (E := Permissions) 16)
    by (unfold representable; simpl; lia).
  split; [exact Hrep|].
  destruct (fromEnum_strict (E := Permissions) READ Hrep) as [Hin _].
  destruct (fromEnum_strict (E := Permissions) 16 Hrep16) as [_ Hout].
  destruct (Hin eq_refl) as [H1 H2].
  split; [exact H1|]. split; [exact H2|].
  apply Hout. vm_compute. discriminate.
Defined.

Lemma reachable_is_valid_witness :
  reachable (snd (set (FlagSet_of (E := Permissions) READ) WRITE))
  /\ isValid_self (snd (set (FlagSet_of (E := Permissions) READ) WRITE)) = true
  /\ toUnderlying (snd (set (FlagSet_of (E := Permissions) READ) WRITE)) = 3.
Proof.
  assert (Hreach : reachable (snd (set (FlagSet_of (E := Permissions) READ) WRITE)))
    by (apply reach_set, reach_of).
  split; [exact Hreach|].
  split; [apply (reachable_is_valid _ Hreach)|reflexivity].
Defined.

Lemma operators_closed_boolean_witness :
  valid (FlagSet_of (E := Permissions) 3)
  /\ valid (FlagSet_of (E := Permissions) 6)
  /\ valid (FlagSet_of (E := Permissions) EXECUTE)
  /\ isValid_self (op_not (FlagSet_of (E := Permissions) 3)) = true
  /\ op_not (op_not (FlagSet_of (E := Permissions) 3)) = FlagSet_of 3
  /\ op_and (FlagSet_of (E := Permissions) 3) (fromUnderlying (@VALID_MASK Permissions))
     = FlagSet_of 3.
Proof.
  assert (Ha : valid (FlagSet_of (E := Permissions) 3))
    by (split; [vm_compute; split; [discriminate|reflexivity]|reflexivity]).
  assert (Hb : valid (FlagSet_of (E := Permissions) 6))
    by (split; [vm_compute; split; [discriminate|reflexivity]|reflexivity]).
  assert (Hc : valid (FlagSet_of (E := Permissions) EXECUTE))
    by (split; [vm_compute; split; [discriminate|reflexivity]|reflexivity]).
  split; [exact Ha|]. split; [exact Hb|]. split; [exact Hc|].
  destruct (operators_closed_boolean _ _ _ Ha Hb Hc)
    as (_ & (_ & _ & _ & Hnot) & Hdouble & Htop & _).
  auto.
Defined.

Lemma validation_failure_is_atomic_witness :
  isValid (E := Permissions) 16 = false
  /\ set (FlagSet_of (E := Permissions) READ) 16
     = (Returned (unexpected (mkError "Invalid enum value" VALUE_ERROR)), FlagSet_of READ)
  /\ fromEnum (E := Permissions) 16
     = unexpected (mkError "Invalid enum value for FlagSet" VALUE_ERROR).
Proof.
  split; [reflexivity|].
  destruct (validation_failure_is_atomic (E := Permissions) (FlagSet_of READ) 16 eq_refl)
    as (Hfrom & _ & Hset & _).
  split; [exact Hset|exact Hfrom].
Defined.

(** The spec's scenarios, evaluated. *)
Example scenario_permissions :
  (exists e, fromEnum (E := Permissions) 16 = unexpected e /\ type e = VALUE_ERROR)
  /\ op_and (FlagSet_of (E := Permissions) 3) (FlagSet_of 6) = FlagSet_of WRITE
  /\ toUnderlying (op_not (FlagSet_of (E := Permissions) READ)) = 6.
Proof. split; [eexists; split; reflexivity|split; reflexivity]. Qed.

Example scenario_network :
  iterated (snd (setAll (FlagSet_default (E := NetworkFlags))))
  = Returned [TCP; UDP; IPV6; ENCRYPTED]
  /\ visited (snd (setAll (FlagSet_default (E := NetworkFlags))))
     = Returned [TCP; UDP; IPV6; ENCRYPTED]
  /\ count (snd (setAll (FlagSet_default (E := NetworkFlags)))) = 4.
Proof. repeat split; reflexivity. Qed.

(** C6 at [WideFlags], an enumeration over [u64] with the flags [LOW = 1]
    and [HIGH = 0x80000000]: with both stored, iteration and [forEach]
    agree with each other, but the second value they produce is
    [0xFFFFFFFF80000000], the sign-extended [int] that [1 << 31] is, not
    the flag [HIGH]; it is no single-bit flag and not even a valid
    value. *)
Theorem iteration_wide_enum :
  let self := snd (setAll (FlagSet_default (E := WideFlags))) in
  reachable self
  /\ stored_flags self = [LOW; HIGH]
  /\ iterated self = Returned [LOW; 18446744071562067968]
  /\ visited self = Returned [LOW; 18446744071562067968]
  /\ iterated self <> Returned (stored_flags self)
  /\ isValid (E := WideFlags) 18446744071562067968 = false.
Proof.
  cbv zeta. split; [apply reach_setAll, reach_default|].
  split; [reflexivity|]. split; [reflexivity|]. split; [reflexivity|].
  split; [|reflexivity].
  intros H. vm_compute in H. discriminate H.
Qed.


(* ===================================================================== *)
(** * Further properties of bits.hpp *)
(* ===================================================================== *)

Section FlagSetUse.
Context {E : BitmaskEnum}.

(** X1: the [NUM_BITS] initialiser computes the bit length of
    [VALID_MASK]: zero for an empty mask, otherwise one more than the
    position of its highest bit, never more than the width of the
    underlying type; the loop stops by its own condition, more rounds
    change nothing. *)
Theorem NUM_BITS_is_bit_length :
  0 <= NUM_BITS <= width Underlying
  /\ VALID_MASK < 2 ^ NUM_BITS
  /\ (VALID_MASK = 0 -> NUM_BITS = 0)
  /\ (0 < VALID_MASK -> NUM_BITS = Z.log2 VALID_MASK + 1)
  /\ (forall fuel : nat,
         width Underlying < Z.of_nat fuel ->
         NUM_BITS_loop fuel (wrap Underlying ALL) 0 = NUM_BITS).
Proof.
  pose proof NUM_BITS_spec as (Hn & Hlt & Hlow).
  pose proof VALID_MASK_range as [Hm0 _].
  split; [exact Hn|]. split; [exact Hlt|]. split; [|split].
  - intros Hz. destruct (Z.eq_dec NUM_BITS 0) as [|Hne]; [assumption|].
    specialize (Hlow ltac:(lia)).
    assert (0 < 2 ^ (NUM_BITS - 1)) by (apply Z.pow_pos_nonneg; lia). lia.
  - intros Hpos.
    assert (Hnpos : 0 < NUM_BITS).
    { destruct (Z.eq_dec NUM_BITS 0) as [Hz|]; [|lia].
      rewrite Hz in Hlt. simpl in Hlt. lia. }
    specialize (Hlow Hnpos).
    rewrite (Z.log2_unique VALID_MASK (NUM_BITS - 1)); [lia|lia|].
    replace (Z.succ (NUM_BITS - 1)) with NUM_BITS by lia. lia.
  - exact NUM_BITS_fuel.
Qed.

(** X2: for a non-zero value [bitPosition] is the position of its lowest
    set bit: that bit is set, no lower one is, the position is inside the
    underlying type, and the value is a multiple of two to that power;
    the loop stops by its own condition. *)
Theorem bitPosition_lowest_set_bit (value : Z) :
  representable value -> value <> 0 ->
  0 <= bitPosition value < width Underlying
  /\ Z.testbit value (bitPosition value) = true
  /\ (forall j, 0 <= j < bitPosition value -> Z.testbit value j = false)
  /\ value mod 2 ^ bitPosition value = 0
  /\ (forall fuel : nat,
         width Underlying <= Z.of_nat fuel ->
         bitPosition_loop fuel value 0 = bitPosition value).
Proof.
  intros Hrep Hne.
  pose proof (bitPosition_spec value Hrep Hne) as (Hr & Hset & Hlow).
  split; [exact Hr|]. split; [exact Hset|]. split; [exact Hlow|]. split.
  - apply Z.bits_inj'; intros i Hi. rewrite Z.testbit_0_l.
    destruct (Z.ltb_spec i (bitPosition value)).
    + rewrite Z.mod_pow2_bits_low by lia. apply Hlow; lia.
    + apply Z.mod_pow2_bits_high; lia.
  - intros fuel Hf. now apply bitPosition_fuel.
Qed.

(** A legal single flag: one bit of [VALID_MASK]. *)
Lemma legal_flag (k : Z) :
  0 <= k -> Z.testbit VALID_MASK k = true ->
  k < NUM_BITS
  /\ representable (2 ^ k)
  /\ isValid (2 ^ k) = true
  /\ wrap Underlying (2 ^ k) = 2 ^ k
  /\ 2 ^ k <> 0
  /\ bitPosition (2 ^ k) = k.
Proof.
  intros Hk Hm. destruct (VALID_MASK_testbit_lt k Hm) as [HN Hw].
  assert (Hrep : representable (2 ^ k)).
  { split; [apply Z.pow_nonneg; lia|apply Z.pow_lt_mono_r; lia]. }
  split; [exact HN|]. split; [exact Hrep|]. split; [|split; [|split]].
  - apply (isValid_true_iff _ Hrep).
    apply Z.bits_inj'; intros i Hi.
    rewrite Z.land_spec, Z.lnot_spec, Z.pow2_bits_eqb, Z.testbit_0_l by lia.
    destruct (Z.eqb_spec k i) as [<-|]; [now rewrite Hm|reflexivity].
  - now apply wrap_small.
  - apply Z.pow_nonzero; lia.
  - apply bitPosition_pow2. lia.
Qed.

Lemma has_legal (self : FlagSet E) (k : Z) :
  0 <= k -> Z.testbit VALID_MASK k = true ->
  has self (2 ^ k) = Returned (has_value (Z.testbit (m_bits self) k)).
Proof.
  intros Hk Hm. destruct (legal_flag k Hk Hm) as (_ & _ & Hv & Hw & Hne & Hp).
  rewrite has_accepts by (rewrite ?Hw; assumption). now rewrite Hw, Hp.
Qed.

Lemma set_legal (self : FlagSet E) (k : Z) :
  0 <= k -> Z.testbit VALID_MASK k = true ->
  set self (2 ^ k) = (Returned ok_void, @mkFlagSet E (Z.setbit (m_bits self) k)).
Proof.
  intros Hk Hm. destruct (legal_flag k Hk Hm) as (_ & _ & Hv & Hw & Hne & Hp).
  rewrite set_accepts by (rewrite ?Hw; assumption). now rewrite Hw, Hp.
Qed.

Lemma clear_legal (self : FlagSet E) (k : Z) :
  0 <= k -> Z.testbit VALID_MASK k = true ->
  clear self (2 ^ k) = (Returned ok_void, @mkFlagSet E (Z.clearbit (m_bits self) k)).
Proof.
  intros Hk Hm. destruct (legal_flag k Hk Hm) as (_ & _ & Hv & Hw & Hne & Hp).
  rewrite clear_accepts by (rewrite ?Hw; assumption). now rewrite Hw, Hp.
Qed.

Lemma toggle_legal (self : FlagSet E) (k : Z) :
  0 <= k -> Z.testbit VALID_MASK k = true ->
  toggle self (2 ^ k)
  = (Returned ok_void, @mkFlagSet E (Z.lxor (m_bits self) (Z.shiftl 1 k))).
Proof.
  intros Hk Hm. destruct (legal_flag k Hk Hm) as (_ & _ & Hv & Hw & Hne & Hp).
  rewrite toggle_accepts by (rewrite ?Hw; assumption). now rewrite Hw, Hp.
Qed.

(** X3: the enumerator [NONE = 0] is no flag the single-flag operations
    handle: zero passes [isValid], [fromEnum] accepts it as the empty
    set, but [bitPosition] answers the sentinel [NUM_BITS] and each of
    [has], [set], [clear] and [toggle] leaves with [std::out_of_range],
    the object untouched. *)
Theorem zero_candidate_out_of_range (self : FlagSet E) :
  isValid 0 = true
  /\ bitPosition 0 = NUM_BITS
  /\ fromEnum 0 = has_value FlagSet_default
  /\ has self 0 = Thrown out_of_range
  /\ set self 0 = (Thrown out_of_range, self)
  /\ clear self 0 = (Thrown out_of_range, self)
  /\ toggle self 0 = (Thrown out_of_range, self).
Proof.
  pose proof zero_passes_validation as Hv.
  assert (Hw : wrap Underlying 0 = 0).
  { apply wrap_small. split; [lia|]. pose proof width_range.
    apply Z.pow_pos_nonneg; lia. }
  split; [exact Hv|]. split; [reflexivity|]. split.
  - unfold fromEnum. rewrite Hv. cbn [negb]. unfold ok.
    apply (f_equal has_value).
    apply FlagSet_eq. rewrite m_bits_FlagSet_of_land.
    unfold FlagSet_default, Bitset.empty. cbn [m_bits]. apply Z.land_0_l.
  - apply zero_candidate_throws; assumption.
Qed.

(** X4: what a legal single flag does to the answers of [has].  After
    [set( 2^j )] the flag [2^j] is present and every other legal flag is
    as before; after [clear( 2^j )] it is absent and the others are as
    before; [toggle( 2^j )] inverts it and keeps the others. *)
Theorem single_flag_effects (self : FlagSet E) (j k : Z) :
  0 <= j -> 0 <= k ->
  Z.testbit VALID_MASK j = true -> Z.testbit VALID_MASK k = true ->
  has self (2 ^ k) = Returned (has_value (Z.testbit (m_bits self) k))
  /\ fst (set self (2 ^ j)) = Returned ok_void
  /\ fst (clear self (2 ^ j)) = Returned ok_void
  /\ fst (toggle self (2 ^ j)) = Returned ok_void
  /\ has (snd (set self (2 ^ j))) (2 ^ k)
     = Returned (has_value ((j =? k) || Z.testbit (m_bits self) k))
  /\ has (snd (clear self (2 ^ j))) (2 ^ k)
     = Returned (has_value (negb (j =? k) && Z.testbit (m_bits self) k))
  /\ has (snd (toggle self (2 ^ j))) (2 ^ k)
     = Returned (has_value (xorb (j =? k) (Z.testbit (m_bits self) k))).
Proof.
  intros Hj Hk Hmj Hmk.
  rewrite (set_legal self j Hj Hmj), (clear_legal self j Hj Hmj),
    (toggle_legal self j Hj Hmj), !has_legal by assumption.
  cbn [fst snd m_bits].
  rewrite Z.setbit_eqb, Z.clearbit_eqb, Z.lxor_spec, Z.shiftl_1_l, Z.pow2_bits_eqb by lia.
  repeat split; try reflexivity.
  - now rewrite andb_comm.
  - now rewrite xorb_comm.
Qed.

(** X5: repeating a single-flag mutator, with any candidate at all:
    [toggle] twice gives the object back, [set] and [clear] are
    idempotent, and the later of [set] and [clear] wins. *)
Theorem single_flag_repeated (self : FlagSet E) (num : Z) :
  snd (toggle (snd (toggle self num)) num) = self
  /\ snd (set (snd (set self num)) num) = snd (set self num)
  /\ snd (clear (snd (clear self num)) num) = snd (clear self num)
  /\ snd (clear (snd (set self num)) num) = snd (clear self num)
  /\ snd (set (snd (clear self num)) num) = snd (set self num).
Proof.
  destruct (candidate_cases num) as [Hr|[[Hv Hz]|[Hv Hne]]].
  - repeat first [ rewrite set_rejects by assumption
                 | rewrite clear_rejects by assumption
                 | rewrite toggle_rejects by assumption
                 | progress cbn [snd] ].
    repeat split; reflexivity.
  - assert (Hall : forall s : FlagSet E,
               snd (set s num) = s /\ snd (clear s num) = s /\ snd (toggle s num) = s).
    { intros s. destruct (zero_candidate_throws s num Hv Hz) as (_ & -> & -> & ->).
      auto. }
    repeat split; repeat (rewrite ?(proj1 (Hall _)), ?(proj1 (proj2 (Hall _))),
                           ?(proj2 (proj2 (Hall _)))); reflexivity.
  - destruct (single_flag_position num Hv Hne) as (Hp & _).
    repeat first [ rewrite set_accepts by assumption
                 | rewrite clear_accepts by assumption
                 | rewrite toggle_accepts by assumption
                 | progress cbn [snd m_bits] ].
    set (p := bitPosition (wrap Underlying num)) in *.
    repeat split; [destruct self as [m]; cbn [m_bits]|..]; f_equal;
      apply Z.bits_inj'; intros i Hi;
      repeat first [ rewrite Z.setbit_eqb by lia
                   | rewrite Z.clearbit_eqb by lia
                   | rewrite Z.lxor_spec
                   | rewrite Z.shiftl_1_l
                   | rewrite Z.pow2_bits_eqb by lia ];
      destruct (Z.eqb_spec p i); cbn [negb orb andb xorb];
      rewrite ?andb_true_r, ?andb_false_r, ?orb_true_r, ?orb_false_r,
        ?xorb_false_r, ?xorb_true_r, ?negb_involutive; reflexivity.
Qed.

Lemma valid_within (self : FlagSet E) : valid self -> within_mask self.
Proof. apply valid_iff_within_mask. Qed.

Lemma toUnderlying_valid (self : FlagSet E) :
  valid self -> toUnderlying self = m_bits self.
Proof. intros H. apply toUnderlying_wf, within_mask_wf, valid_within, H. Qed.

(** X6: the bulk operations always report success; [setAll] stores
    exactly [VALID_MASK], [clearAll] stores nothing, and on a valid flag
    set [toggleAll] is the complement [~]: twice it gives the set back,
    and after [clearAll] it gives what [setAll] gives. *)
Theorem bulk_operations (self : FlagSet E) :
  valid self ->
  fst (setAll self) = ok_void
  /\ fst (clearAll self) = ok_void
  /\ fst (toggleAll self) = ok_void
  /\ toUnderlying (snd (setAll self)) = VALID_MASK
  /\ toUnderlying (snd (clearAll self)) = 0
  /\ hasNone (snd (clearAll self)) = true
  /\ snd (toggleAll self) = op_not self
  /\ snd (toggleAll (snd (toggleAll self))) = self
  /\ snd (toggleAll (snd (clearAll self))) = snd (setAll self)
  /\ valid (snd (setAll self)) /\ valid (snd (clearAll self))
  /\ valid (snd (toggleAll self)).
Proof.
  intros Hv. apply valid_within in Hv as Hw. destruct Hw as [H0 Hs].
  pose proof (within_mask_setAll self) as Hall.
  pose proof (within_mask_clearAll self) as Hnone.
  pose proof (within_mask_toggleAll self (valid_within self Hv)) as Htog.
  assert (Hbit : forall i, Z.testbit (m_bits self) i = true ->
                           Z.testbit VALID_MASK i = true)
    by (intros i; now apply land_subset_testbit).
  repeat split; try reflexivity;
    try (apply valid_iff_within_mask; assumption).
  - rewrite toUnderlying_wf by now apply within_mask_wf.
    unfold setAll. cbn [snd m_bits]. apply of_ullong_VALID_MASK.
  - apply FlagSet_eq. rewrite m_bits_op_not by now apply valid_within.
    unfold toggleAll, Bitset.xor_assign. cbn [snd m_bits].
    rewrite of_ullong_VALID_MASK.
    apply Z.bits_inj'; intros i Hi. specialize (Hbit i).
    rewrite Z.lxor_spec, Z.land_spec, Z.lnot_spec by lia.
    destruct (Z.testbit (m_bits self) i), (Z.testbit VALID_MASK i);
      try reflexivity; discriminate Hbit; reflexivity.
  - destruct self as [m]. unfold toggleAll, Bitset.xor_assign. cbn [snd m_bits].
    f_equal. rewrite Z.lxor_assoc, Z.lxor_nilpotent. apply Z.lxor_0_r.
Qed.

(** X7: on valid operands a compound assignment leaves in the object
    what the binary operator returns. *)
Theorem compound_assignment_agrees (self other : FlagSet E) :
  valid self -> valid other ->
  op_or_assign self other = op_or self other
  /\ op_and_assign self other = op_and self other
  /\ op_xor_assign self other = op_xor self other.
Proof.
  intros Ha Hb. apply valid_within in Ha, Hb.
  repeat split; apply FlagSet_eq;
    rewrite ?m_bits_op_or, ?m_bits_op_and, ?m_bits_op_xor by assumption; reflexivity.
Qed.

(** X8: a valid flag set survives the trip through its raw value and
    through its enum value: [fromUnderlying], the constructor and the
    strict [fromEnum] all rebuild it. *)
Theorem conversion_round_trip (self : FlagSet E) :
  valid self ->
  toEnum self = toUnderlying self
  /\ fromUnderlying (toUnderlying self) = self
  /\ FlagSet_of (toEnum self) = self
  /\ fromEnum (toEnum self) = has_value self
  /\ isValid (toEnum self) = true.
Proof.
  intros Hv. pose proof (toUnderlying_valid self Hv) as Hu.
  apply valid_within in Hv as Hw. destruct Hw as [H0 Hs].
  assert (He : toEnum self = toUnderlying self).
  { unfold toEnum. apply wrap_small, toUnderlying_representable. }
  assert (Hval : isValid (toEnum self) = true).
  { rewrite He. apply (isValid_true_iff _ (toUnderlying_representable self)).
    apply land_lnot_zero_iff. now rewrite Hu. }
  assert (Hof : FlagSet_of (toEnum self) = self).
  { apply FlagSet_eq. now rewrite m_bits_FlagSet_of_land, He, Hu. }
  split; [exact He|]. split; [|split; [exact Hof|split; [|exact Hval]]].
  - apply FlagSet_eq. now rewrite m_bits_fromUnderlying, Hu.
  - unfold fromEnum. rewrite Hval. cbn [negb]. unfold ok. now rewrite Hof.
Qed.

(** X9: the strict path accepts exactly the values the lenient path
    keeps whole: for a value of the underlying type, [isValid] holds if
    and only if [fromUnderlying] reads back as the value itself, and if
    and only if [fromEnum] succeeds. *)
Theorem strict_accepts_what_lenient_keeps (v : Z) :
  representable v ->
  (isValid v = true <-> toUnderlying (fromUnderlying v) = v)
  /\ (isValid v = true <-> exists fs, fromEnum v = has_value fs)
  /\ (isValid v = false <-> exists e, fromEnum v = unexpected e).
Proof.
  intros Hrep.
  assert (Hu : toUnderlying (fromUnderlying v) = Z.land v VALID_MASK).
  { rewrite toUnderlying_wf by apply within_mask_wf, within_mask_fromUnderlying.
    apply m_bits_fromUnderlying. }
  split; [|split].
  - rewrite Hu, (isValid_true_iff v Hrep). apply land_lnot_zero_iff.
  - unfold fromEnum, ok, err. destruct (isValid v); cbn [negb]; split; intros H;
      try discriminate; eauto. destruct H as [fs H]. discriminate H.
  - unfold fromEnum, ok, err. destruct (isValid v); cbn [negb]; split; intros H;
      try discriminate; eauto. destruct H as [fs H]. discriminate H.
Qed.

Lemma indices_In (n : nat) :
  forall i j, i <= j < i + Z.of_nat n -> In j (Bitset.indices i n).
Proof.
  induction n as [|n IH]; intros i j Hj; cbn [Bitset.indices]; [lia|].
  destruct (Z.eq_dec i j) as [->|Hne]; [now left|right]. apply IH. lia.
Qed.

Lemma positions_In (j : Z) :
  In j (Bitset.positions NUM_BITS) <-> 0 <= j < NUM_BITS.
Proof.
  split; [apply positions_bounds|].
  intros Hj. unfold Bitset.positions. apply indices_In. lia.
Qed.

Lemma filter_nil_iff {A : Type} (f : A -> bool) (l : list A) :
  filter f l = [] <-> forall x, In x l -> f x = false.
Proof.
  induction l as [|a l IH]; cbn [filter]; split; intros H.
  - intros x [].
  - reflexivity.
  - destruct (f a) eqn:Hfa; [discriminate|].
    intros x [<-|Hx]; [exact Hfa|]. now apply IH.
  - rewrite (H a) by now left. apply IH. intros x Hx. apply H. now right.
Qed.

(** X10: on a well-formed bit vector the three queries agree:
    [count()] is zero exactly when [hasNone()] holds, [hasAny()] is its
    negation, [count()] is at most [NUM_BITS] and it is the number of
    stored single-bit flags. *)
Theorem count_any_none_consistent (self : FlagSet E) :
  Bitset.wf NUM_BITS (m_bits self) ->
  (count self = 0 <-> hasNone self = true)
  /\ (count self = 0 <-> hasAny self = false)
  /\ hasAny self = negb (hasNone self)
  /\ (hasNone self = true <-> toUnderlying self = 0)
  /\ 0 <= count self <= NUM_BITS
  /\ count self = Z.of_nat (List.length (stored_flags self)).
Proof.
  intros Hwf.
  assert (Hlen : count self = Z.of_nat (List.length (stored_flags self))).
  { unfold count, Bitset.count, stored_flags. now rewrite length_map. }
  assert (Hzero : count self = 0 <-> m_bits self = 0).
  { unfold count, Bitset.count. split; intros H.
    - assert (Hnil : filter (Z.testbit (m_bits self)) (Bitset.positions NUM_BITS) = []).
      { destruct (filter _ _); [reflexivity|cbn [List.length] in H; lia]. }
      apply Z.bits_inj'; intros i Hi. rewrite Z.testbit_0_l.
      destruct (Z.ltb_spec i NUM_BITS) as [Hlt|Hge].
      + apply (proj1 (filter_nil_iff _ _) Hnil). apply positions_In. lia.
      + destruct (Z.testbit (m_bits self) i) eqn:Hb; [|reflexivity].
        apply (testbit_true_lt_pow2 _ NUM_BITS) in Hb; [lia|exact Hwf].
    - rewrite (proj2 (filter_nil_iff _ _)); [reflexivity|].
      intros x _. rewrite H. apply Z.testbit_0_l. }
  assert (Hnone : hasNone self = true <-> m_bits self = 0)
    by (unfold hasNone, Bitset.none; apply Z.eqb_eq).
  split; [now rewrite Hzero, Hnone|]. split.
  - unfold hasAny, Bitset.any. rewrite Hzero, negb_false_iff. apply iff_sym, Z.eqb_eq.
  - split; [reflexivity|]. split; [now rewrite toUnderlying_wf|].
    split; [|exact Hlen]. rewrite Hlen.
    pose proof (stored_flags_length self). lia.
Qed.

(** X11: the operators act bit by bit on the raw values of valid flag
    sets: [|], [&] and [^] are the bitwise or, and, exclusive or of the
    operands' raw values, and the complement [~] is [VALID_MASK] with the
    operand's bits removed. *)
Theorem operators_on_raw_values (a b : FlagSet E) :
  valid a -> valid b ->
  toUnderlying (op_or a b) = Z.lor (toUnderlying a) (toUnderlying b)
  /\ toUnderlying (op_and a b) = Z.land (toUnderlying a) (toUnderlying b)
  /\ toUnderlying (op_xor a b) = Z.lxor (toUnderlying a) (toUnderlying b)
  /\ toUnderlying (op_not a) = Z.lxor VALID_MASK (toUnderlying a)
  /\ toUnderlying (op_not a) = VALID_MASK - toUnderlying a.
Proof.
  intros Ha Hb. rewrite (toUnderlying_valid a Ha), (toUnderlying_valid b Hb).
  apply valid_within in Ha, Hb.
  rewrite !toUnderlying_wf
    by (apply within_mask_wf; auto using within_mask_op_or, within_mask_op_and,
          within_mask_op_xor, within_mask_op_not).
  rewrite m_bits_op_or, m_bits_op_and, m_bits_op_xor, m_bits_op_not by assumption.
  destruct Ha as [Ha0 Ha].
  assert (Hbit : forall i, Z.testbit (m_bits a) i = true -> Z.testbit VALID_MASK i = true)
    by (intros i; now apply land_subset_testbit).
  assert (Hx : Z.land (Z.lnot (m_bits a)) VALID_MASK = Z.lxor VALID_MASK (m_bits a)).
  { apply Z.bits_inj'; intros i Hi. specialize (Hbit i).
    rewrite Z.lxor_spec, Z.land_spec, Z.lnot_spec by lia.
    destruct (Z.testbit (m_bits a) i), (Z.testbit VALID_MASK i);
      try reflexivity; discriminate Hbit; reflexivity. }
  repeat split; try reflexivity; try exact Hx.
  rewrite Z.sub_nocarry_ldiff.
  - rewrite Z.land_comm. apply Z.bits_inj'; intros i Hi.
    now rewrite Z.land_spec, Z.ldiff_spec, Z.lnot_spec by lia.
  - apply Z.bits_inj'; intros i Hi. specialize (Hbit i).
    rewrite Z.ldiff_spec, Z.testbit_0_l.
    destruct (Z.testbit (m_bits a) i), (Z.testbit VALID_MASK i);
      try reflexivity; discriminate Hbit; reflexivity.
Qed.

(** X12: membership under the operators, asked through [has] with a
    legal single flag: a flag is in [a | b] when it is in one of them,
    in [a & b] when in both, in [a ^ b] when in exactly one, and in [~a]
    when it is not in [a]. *)
Theorem operators_membership (a b : FlagSet E) (k : Z) :
  valid a -> valid b -> 0 <= k -> Z.testbit VALID_MASK k = true ->
  exists x y : bool,
    has a (2 ^ k) = Returned (has_value x)
    /\ has b (2 ^ k) = Returned (has_value y)
    /\ has (op_or a b) (2 ^ k) = Returned (has_value (x || y))
    /\ has (op_and a b) (2 ^ k) = Returned (has_value (x && y))
    /\ has (op_xor a b) (2 ^ k) = Returned (has_value (xorb x y))
    /\ has (op_not a) (2 ^ k) = Returned (has_value (negb x)).
Proof.
  intros Ha Hb Hk Hm. apply valid_within in Ha, Hb.
  exists (Z.testbit (m_bits a) k), (Z.testbit (m_bits b) k).
  rewrite !has_legal by assumption.
  rewrite m_bits_op_or, m_bits_op_and, m_bits_op_xor, m_bits_op_not by assumption.
  rewrite Z.lor_spec, !Z.land_spec, Z.lxor_spec, Z.lnot_spec, Hm, andb_true_r by lia.
  repeat split; reflexivity.
Qed.

(** X13: what a freshly built flag set contains: after construction
    from a value, or lenient ingestion of it, exactly the legal flags
    that are bits of the value are present; the default-constructed set
    has none. *)
Theorem constructed_contents (v k : Z) :
  0 <= k -> Z.testbit VALID_MASK k = true ->
  has (FlagSet_of v) (2 ^ k) = Returned (has_value (Z.testbit v k))
  /\ has (fromUnderlying v) (2 ^ k) = Returned (has_value (Z.testbit v k))
  /\ has FlagSet_default (2 ^ k) = Returned (has_value false).
Proof.
  intros Hk Hm. rewrite !has_legal by assumption.
  rewrite m_bits_FlagSet_of_land, m_bits_fromUnderlying.
  unfold FlagSet_default, Bitset.empty. cbn [m_bits].
  now rewrite Z.land_spec, Hm, andb_true_r, Z.testbit_0_l.
Qed.

(** X14: a range-based [for] over a flag set and [forEach] are one and
    the same traversal, for every enumeration: started in the same state
    with the same body they end in the same way, be it with a value or
    with undefined behaviour; in particular they see the same flags in
    the same order. *)
Theorem traversals_agree {S : Type} (self : FlagSet E) (body : Z -> S -> S) (s : S) :
  range_for self body s = forEach self body s
  /\ iterated self = visited self.
Proof. split; [apply range_for_forEach|apply iterated_visited]. Qed.

Lemma stored_from_sorted (f : Z -> bool) (n : nat) :
  forall i, 0 <= i ->
    StronglySorted Z.lt (map (fun k => 2 ^ k) (filter f (Bitset.indices i n)))
    /\ Forall (fun x => 2 ^ i <= x) (map (fun k => 2 ^ k) (filter f (Bitset.indices i n))).
Proof.
  induction n as [|n IH]; intros i Hi; cbn [Bitset.indices filter map].
  - split; constructor.
  - destruct (IH (i + 1) ltac:(lia)) as [Hs Hb].
    assert (Hstep : 2 ^ i < 2 ^ (i + 1)) by (apply Z.pow_lt_mono_r; lia).
    assert (Hb' : Forall (fun x => 2 ^ i <= x)
                    (map (fun k => 2 ^ k) (filter f (Bitset.indices (i + 1) n)))).
    { eapply Forall_impl; [|exact Hb]. cbv beta. intros x Hx. lia. }
    destruct (f i); cbn [map]; [|split; assumption].
    split.
    + constructor; [exact Hs|].
      eapply Forall_impl; [|exact Hb]. cbv beta. intros x Hx. lia.
    + constructor; [lia|exact Hb'].
Qed.

(** X15: for an enumeration with at most 31 flag positions, or an
    underlying type no wider than [int], iteration and [forEach] return
    and produce exactly the stored single-bit flags, in strictly
    increasing order, [count()] of them. *)
Theorem iteration_yields_stored_flags (self : FlagSet E) :
  NUM_BITS <= INT_BITS - 1 \/ width Underlying <= INT_BITS ->
  iterated self = Returned (stored_flags self)
  /\ visited self = Returned (stored_flags self)
  /\ StronglySorted Z.lt (stored_flags self)
  /\ Z.of_nat (List.length (stored_flags self)) = count self
  /\ count self <= NUM_BITS.
Proof.
  intros Hc. destruct (iterated_stored_flags self Hc) as (Hi & Hv & Hlen).
  assert (Hcount : Z.of_nat (List.length (stored_flags self)) = count self).
  { unfold count, Bitset.count, stored_flags. now rewrite length_map. }
  split; [exact Hi|]. split; [exact Hv|]. split; [|split; [exact Hcount|lia]].
  unfold stored_flags, Bitset.positions. apply stored_from_sorted. lia.
Qed.

(** X16: on a valid flag set the stored flags are the legal flags [has]
    confirms: each of them is a single bit of [VALID_MASK] that passes
    [isValid] and for which [has] answers [true], and a legal flag is
    among them exactly when [has] answers [true]. *)
Theorem stored_flags_are_present (self : FlagSet E) :
  valid self ->
  (forall f, In f (stored_flags self) ->
     exists k, 0 <= k < NUM_BITS /\ f = 2 ^ k
               /\ Z.testbit VALID_MASK k = true
               /\ isValid f = true
               /\ has self f = Returned (has_value true))
  /\ (forall k, 0 <= k -> Z.testbit VALID_MASK k = true ->
        (In (2 ^ k) (stored_flags self) <-> has self (2 ^ k) = Returned (has_value true))).
Proof.
  intros Hv. apply valid_within in Hv as [H0 Hs].
  assert (Hin : forall f, In f (stored_flags self) <->
                  exists k, 0 <= k < NUM_BITS /\ f = 2 ^ k
                            /\ Z.testbit (m_bits self) k = true).
  { intros f. unfold stored_flags. rewrite in_map_iff. split.
    - intros (k & <- & Hk). apply filter_In in Hk as [Hk Hb].
      apply positions_In in Hk. eauto.
    - intros (k & Hk & -> & Hb). exists k. split; [reflexivity|].
      apply filter_In. split; [now apply positions_In|exact Hb]. }
  split.
  - intros f Hf. apply Hin in Hf as (k & Hk & -> & Hb).
    pose proof (land_subset_testbit _ _ k Hs Hb) as Hm.
    destruct (legal_flag k ltac:(lia) Hm) as (_ & _ & Hval & _).
    exists k. repeat split; try assumption; try lia.
    rewrite has_legal by (assumption || lia). now rewrite Hb.
  - intros k Hk Hm. rewrite has_legal by assumption. rewrite Hin. split.
    + intros (k' & Hk' & Heq & Hb).
      apply Z.pow_inj_r in Heq; [|lia..]. subst k'. now rewrite Hb.
    + intros H. injection H as Hb.
      destruct (VALID_MASK_testbit_lt k Hm). exists k. repeat split; auto; lia.
Qed.

(** X17: the operators on the enumeration itself are the bitwise
    operators of its underlying type: [|] and [&] are bitwise or and
    and, [~] is the complement within the type's width, so applied twice
    it gives the value back, and a value and its complement share no bit
    and together fill the width. *)
Theorem enum_operators (left right : Z) :
  representable left -> representable right ->
  enum_or left right = Z.lor left right
  /\ enum_and left right = Z.land left right
  /\ enum_not left = 2 ^ width Underlying - 1 - left
  /\ representable (enum_or left right)
  /\ representable (enum_and left right)
  /\ representable (enum_not left)
  /\ enum_not (enum_not left) = left
  /\ enum_and left (enum_not left) = 0
  /\ enum_or left (enum_not left) = 2 ^ width Underlying - 1.
Proof.
  intros Hl Hr. pose proof width_range as Hw.
  assert (Hor : enum_or left right = Z.lor left right).
  { unfold enum_or. rewrite (wrap_small left Hl), (wrap_small right Hr).
    unfold wrap, representable in *.
    rewrite <- (Z.mod_small left _ Hl), <- (Z.mod_small right _ Hr). Z.bitblast. }
  assert (Hand : enum_and left right = Z.land left right).
  { unfold enum_and. rewrite (wrap_small left Hl), (wrap_small right Hr).
    unfold wrap, representable in *.
    rewrite <- (Z.mod_small left _ Hl), <- (Z.mod_small right _ Hr). Z.bitblast. }
  assert (Hnot : forall v, representable v -> enum_not v = 2 ^ width Underlying - 1 - v).
  { intros v Hv. unfold enum_not. rewrite (wrap_small v Hv).
    assert (Hm : wrap Underlying (Z.lnot v) = 2 ^ width Underlying - 1 - v).
    { unfold wrap, Z.lnot, representable in *.
      replace (Z.pred (- v)) with (2 ^ width Underlying - 1 - v + (-1) * 2 ^ width Underlying)
        by lia.
      rewrite Z.mod_add by lia. apply Z.mod_small. lia. }
    unfold bit_not, wrap in *. clear Hl Hr Hor Hand Hv Hw.
    destruct Underlying; cbn [width] in *; rewrite ?Z.mod_mod by lia; exact Hm. }
  assert (Hrn : forall v, representable v -> representable (2 ^ width Underlying - 1 - v))
    by (unfold representable; intros v Hv; lia).
  assert (Hbits : forall i, 0 <= i ->
            Z.testbit (2 ^ width Underlying - 1 - left) i
            = (i <? width Underlying) && negb (Z.testbit left i)).
  { intros i Hi.
    replace (2 ^ width Underlying - 1 - left) with (Z.lnot left mod 2 ^ width Underlying).
    - rewrite Z.testbit_mod_pow2, Z.lnot_spec by lia. reflexivity.
    - unfold Z.lnot, representable in *.
      replace (Z.pred (- left))
        with (2 ^ width Underlying - 1 - left + (-1) * 2 ^ width Underlying) by lia.
      rewrite Z.mod_add by lia. apply Z.mod_small. lia. }
  split; [exact Hor|]. split; [exact Hand|]. split; [now apply Hnot|].
  split; [unfold enum_or; apply wrap_representable|].
  split; [unfold enum_and; apply wrap_representable|].
  split; [apply wrap_representable|].
  split; [rewrite (Hnot left Hl), (Hnot _ (Hrn left Hl)); lia|].
  split.
  - unfold enum_and. rewrite (Hnot left Hl), (wrap_small left Hl), (wrap_small _ (Hrn left Hl)).
    unfold wrap. apply Z.bits_inj'; intros i Hi.
    rewrite Z.testbit_0_l, Z.testbit_mod_pow2, Z.land_spec, Hbits by lia.
    destruct (Z.testbit left i), (i <? width Underlying); reflexivity.
  - unfold enum_or. rewrite (Hnot left Hl), (wrap_small left Hl), (wrap_small _ (Hrn left Hl)).
    unfold wrap. apply Z.bits_inj'; intros i Hi.
    rewrite Z.testbit_mod_pow2, Z.lor_spec, Hbits by lia.
    replace (2 ^ width Underlying - 1) with (Z.ones (width Underlying))
      by (rewrite Z.ones_equiv; lia).
    rewrite Z.testbit_ones_nonneg by lia.
    destruct (Z.ltb_spec i (width Underlying)); cbn [andb].
    + now destruct (Z.testbit left i).
    + reflexivity.
Qed.

End FlagSetUse.

(* ===================================================================== *)
(** * Further properties of result.hpp *)
(* ===================================================================== *)

(** X18: the kind names tell the kinds apart: two kinds with the same
    name are the same kind; every name is between 7 and 19 characters
    long and holds no terminator of its own. *)
Theorem toStr_distinct_names (a b : ErrorType) :
  (toStr a = toStr b <-> a = b)
  /\ (7 <= String.length (toStr a) <= 19)%nat
  /\ c_str (toStr a) = toStr a.
Proof.
  split; [split; [apply toStr_injective|now intros ->]|].
  split; [destruct a; simpl; lia|apply c_str_toStr].
Qed.






(* ===================================================================== *)
(** * Properties of snprintf.hpp *)
(* ===================================================================== *)

Section SnprintfFacts.
Import Snprintf.

Lemma blit_nil (buffer : list ascii) (pos : nat) : blit buffer pos [] = buffer.
Proof. unfold blit. cbn [app List.length]. rewrite Nat.add_0_r. apply firstn_skipn. Qed.

Lemma blit_length (buffer l : list ascii) (pos : nat) :
  (pos + List.length l <= List.length buffer)%nat ->
  List.length (blit buffer pos l) = List.length buffer.
Proof.
  intros H. unfold blit. rewrite !length_app, length_firstn, length_skipn. lia.
Qed.

Lemma firstn_app_exact {A : Type} (n : nat) (l1 l2 : list A) :
  List.length l1 = n -> firstn n (l1 ++ l2) = l1.
Proof.
  intros <-. rewrite firstn_app, Nat.sub_diag, firstn_O, app_nil_r.
  apply firstn_all.
Qed.

Lemma skipn_app_exact {A : Type} (n m : nat) (l1 l2 : list A) :
  List.length l1 = n -> skipn (n + m) (l1 ++ l2) = skipn m l2.
Proof.
  intros <-. rewrite skipn_app, skipn_all2 by lia. cbn [app]. f_equal. lia.
Qed.

Lemma blit_blit (buffer l1 l2 : list ascii) (pos : nat) :
  (pos + List.length l1 <= List.length buffer)%nat ->
  blit (blit buffer pos l1) (pos + List.length l1) l2 = blit buffer pos (l1 ++ l2).
Proof.
  intros H.
  assert (Hpre : List.length (firstn pos buffer ++ l1) = (pos + List.length l1)%nat)
    by (rewrite length_app, length_firstn; lia).
  unfold blit. rewrite length_app.
  rewrite (app_assoc (firstn pos buffer) l1 (skipn _ buffer)).
  rewrite (firstn_app_exact _ _ _ Hpre), (skipn_app_exact _ _ _ _ Hpre).
  rewrite skipn_skipn, <- !app_assoc. do 4 f_equal. lia.
Qed.

Lemma poke_blit (buffer : list ascii) (pos : nat) (c : ascii) :
  (pos < List.length buffer)%nat -> poke buffer pos c = Returned (blit buffer pos [c]).
Proof.
  intros H. unfold poke, blit. apply Nat.ltb_lt in H as ->.
  cbn [List.length app]. now rewrite Nat.add_1_r.
Qed.

Lemma list_ascii_append (a b : string) :
  list_ascii_of_string (a ++ b) = list_ascii_of_string a ++ list_ascii_of_string b.
Proof. induction a as [|c a IH]; simpl; congruence. Qed.

Lemma list_ascii_length (s : string) :
  List.length (list_ascii_of_string s) = String.length s.
Proof. induction s as [|c s IH]; simpl; congruence. Qed.

(** The copying loop stores the characters of its source up to the
    terminator, as far as the room goes. *)
Lemma copy_while_spec (size : nat) (p : string) :
  forall (buffer : list ascii) (pos : nat),
    (pos <= size - 1)%nat -> (0 < size <= List.length buffer)%nat ->
    copy_while p size buffer pos
    = Returned (blit buffer pos (firstn (size - 1 - pos) (list_ascii_of_string (c_str p))),
                (pos + Nat.min (size - 1 - pos) (strlen p))%nat).
Proof.
  unfold strlen.
  induction p as [|c rest IH]; intros buffer pos Hpos Hsize; cbn [copy_while c_str].
  - cbn. rewrite firstn_nil, blit_nil, Nat.min_0_r, Nat.add_0_r. reflexivity.
  - destruct (Ascii.eqb c NUL); cbn [negb andb].
    + cbn. rewrite firstn_nil, blit_nil, Nat.min_0_r, Nat.add_0_r. reflexivity.
    + destruct (Nat.ltb_spec pos (size - 1)) as [Hlt|Hge].
      * rewrite poke_blit by lia. cbn [bind].
        rewrite IH by (rewrite ?blit_length; cbn [List.length]; lia).
        replace (size - 1 - pos)%nat with (S (size - 1 - S pos)) by lia.
        cbn [list_ascii_of_string firstn String.length].
        replace (S pos) with (pos + List.length [c])%nat by (cbn; lia).
        rewrite blit_blit by (cbn [List.length]; lia).
        cbn [app List.length]. f_equal. f_equal. lia.
      * replace (size - 1 - pos)%nat with O by lia.
        cbn [firstn Nat.min]. now rewrite blit_nil, Nat.add_0_r.
Qed.

(** Once the arguments are used up, the loop with arguments is the
    copying loop. *)
Lemma format_loop_exhausted (args : list (option str)) (size : nat) (fmt : string) :
  forall (arg_index : nat) (buffer : list ascii) (pos : nat),
    (List.length args <= arg_index)%nat ->
    format_loop fmt args arg_index size buffer pos = copy_while fmt size buffer pos.
Proof.
  induction fmt as [|c rest IH]; intros arg_index buffer pos Hidx;
    cbn [format_loop copy_while]; [reflexivity|].
  destruct (negb (Ascii.eqb c NUL) && (pos <? size - 1)%nat); [|reflexivity].
  assert (Hno : (arg_index <? List.length args)%nat = false) by (apply Nat.ltb_ge; lia).
  destruct rest as [|d rest']; rewrite ?Hno, ?andb_false_r;
    destruct (poke buffer pos c); cbn [bind]; auto.
Qed.

Lemma expansion_exhausted (args : list (option str)) (fmt : string) :
  forall arg_index, (List.length args <= arg_index)%nat ->
    expansion fmt args arg_index = c_str fmt.
Proof.
  induction fmt as [|c rest IH]; intros arg_index Hidx; cbn [expansion c_str];
    [reflexivity|].
  destruct (Ascii.eqb c NUL); [reflexivity|].
  assert (Hno : (arg_index <? List.length args)%nat = false) by (apply Nat.ltb_ge; lia).
  destruct rest as [|d rest']; [reflexivity|].
  rewrite Hno, andb_false_r. f_equal. now apply IH.
Qed.


(** The loop with arguments stores the expansion of the format, as far
    as the room goes. *)
Lemma format_loop_spec (args : list (option str)) (size : nat) (n : nat) :
  forall (fmt : string) (arg_index : nat) (buffer : list ascii) (pos : nat),
    (String.length fmt <= n)%nat ->
    (pos <= size - 1)%nat -> (0 < size <= List.length buffer)%nat ->
    format_loop fmt args arg_index size buffer pos
    = Returned (blit buffer pos
                  (firstn (size - 1 - pos)
                     (list_ascii_of_string (expansion fmt args arg_index))),
                (pos + Nat.min (size - 1 - pos)
                         (String.length (expansion fmt args arg_index)))%nat).
Proof.
  assert (Hstop : forall (buffer : list ascii) (pos : nat),
             Returned (buffer, pos)
             = Returned (blit buffer pos (firstn (size - 1 - pos) []),
                         (pos + Nat.min (size - 1 - pos) 0)%nat)).
  { intros buffer pos. now rewrite firstn_nil, blit_nil, Nat.min_0_r, Nat.add_0_r. }
  assert (Hfull : forall (buffer : list ascii) (pos : nat) (t : string),
             (size - 1 <= pos)%nat ->
             Returned (buffer, pos)
             = Returned (blit buffer pos (firstn (size - 1 - pos) (list_ascii_of_string t)),
                         (pos + Nat.min (size - 1 - pos) (String.length t))%nat)).
  { intros buffer pos t Hge. replace (size - 1 - pos)%nat with O by lia.
    cbn [firstn Nat.min]. now rewrite blit_nil, Nat.add_0_r. }
  assert (Hchar : forall (buffer : list ascii) (pos : nat) (c : ascii) (t : string),
             (pos < size - 1)%nat -> (0 < size <= List.length buffer)%nat ->
             (blit (blit buffer pos [c]) (S pos)
                (firstn (size - 1 - S pos) (list_ascii_of_string t)),
              (S pos + Nat.min (size - 1 - S pos) (String.length t))%nat)
             = (blit buffer pos
                  (firstn (size - 1 - pos) (list_ascii_of_string (String c t))),
                (pos + Nat.min (size - 1 - pos) (String.length (String c t)))%nat)).
  { intros buffer pos c t Hlt Hsize.
    replace (size - 1 - pos)%nat with (S (size - 1 - S pos)) by lia.
    cbn [list_ascii_of_string firstn String.length].
    replace (S pos) with (pos + List.length [c])%nat at 1 by (cbn; lia).
    rewrite blit_blit by (cbn [List.length]; lia).
    cbn [app]. f_equal. lia. }
  induction n as [|n IH]; intros [|c rest] arg_index buffer pos Hn Hpos Hsize;
    cbn [String.length] in Hn; try lia;
    try (cbn [format_loop expansion list_ascii_of_string String.length]; apply Hstop).
  cbn [format_loop expansion].
  destruct (Ascii.eqb c NUL); cbn [negb andb];
    [cbn [list_ascii_of_string String.length]; apply Hstop|].
  destruct (Nat.ltb_spec pos (size - 1)) as [Hlt|Hge].
  2:{ destruct rest as [|d rest']; [|destruct (_ && _)]; now apply Hfull. }
  destruct rest as [|d rest'].
  - rewrite poke_blit by lia. cbn [bind format_loop].
    rewrite <- Hchar by assumption.
    cbn [list_ascii_of_string String.length].
    now rewrite firstn_nil, blit_nil, Nat.min_0_r, Nat.add_0_r.
  - destruct (Ascii.eqb c "%" && Ascii.eqb d "s" && (arg_index <? List.length args)%nat).
    + cbn [String.length] in Hn. destruct (nth arg_index args None) as [sub|].
      * rewrite copy_while_spec by lia. cbn [bind fst snd].
        rewrite IH by (rewrite ?blit_length; rewrite ?length_firstn; lia).
        unfold strlen.
        set (k := (size - 1 - pos)%nat).
        set (a := c_str sub). set (t := expansion rest' args (S arg_index)).
        assert (Hla : List.length (firstn k (list_ascii_of_string a))
                      = Nat.min k (String.length a))
          by (rewrite length_firstn, list_ascii_length; reflexivity).
        rewrite <- Hla at 1. rewrite blit_blit by (rewrite Hla; lia).
        rewrite list_ascii_append, firstn_app, list_ascii_length, length_append.
        f_equal. f_equal; [|lia]. do 3 f_equal. lia.
      * cbn [String.append]. apply IH; lia.
    + rewrite poke_blit by lia. cbn [bind].
      rewrite IH by (rewrite ?blit_length; cbn [List.length]; lia).
      f_equal. now apply Hchar.
Qed.

(** The whole call, for a destination of at least [size] characters. *)
Lemma ss_snprintf_value (buf : list ascii) (size : nat) (format : str)
      (args : list (option str)) :
  (0 < size <= List.length buf)%nat ->
  snprintf (Some buf) size format args
  = Returned (Nat.min (size - 1) (String.length (expansion format args 0)),
              Some (blit buf 0
                      (firstn (size - 1) (list_ascii_of_string (expansion format args 0))
                       ++ [NUL]))).
Proof.
  intros Hsize. unfold snprintf.
  destruct (Nat.eqb_spec size 0) as [|_]; [lia|].
  assert (Hloop : match args with
                  | [] => copy_while format size buf 0
                  | _ :: _ => format_loop format args 0 size buf 0
                  end
                  = Returned (blit buf 0 (firstn (size - 1)
                                            (list_ascii_of_string (expansion format args 0))),
                              Nat.min (size - 1)
                                (String.length (expansion format args 0)))).
  { destruct args as [|a args].
    - rewrite copy_while_spec by lia. rewrite expansion_exhausted by (cbn; lia).
      unfold strlen. now rewrite Nat.sub_0_r.
    - rewrite (format_loop_spec _ _ (String.length format)) by lia.
      now rewrite Nat.sub_0_r. }
  rewrite Hloop. cbn [bind fst snd].
  set (kept := firstn (size - 1) (list_ascii_of_string (expansion format args 0))).
  assert (Hk : List.length kept = Nat.min (size - 1) (String.length (expansion format args 0)))
    by (unfold kept; rewrite length_firstn, list_ascii_length; reflexivity).
  rewrite <- Hk.
  rewrite poke_blit by (rewrite blit_length; lia).
  cbn [bind]. do 3 f_equal.
  change (List.length kept) with (0 + List.length kept)%nat at 1.
  apply blit_blit. lia.
Qed.

(** X20: [cmn::ss::snprintf] keeps inside the destination.  Given an
    array of at least [size] characters and [size > 0], the call
    returns; the count it returns is below [size]; the array keeps its
    length; a terminator stands at the returned position and nothing
    behind it is touched. *)
Theorem ss_snprintf_bounded (buf : list ascii) (size : nat) (format : str)
        (args : list (option str)) :
  (0 < size <= List.length buf)%nat ->
  exists (written : nat) (buf' : list ascii),
    snprintf (Some buf) size format args = Returned (written, Some buf')
    /\ (written < size)%nat
    /\ List.length buf' = List.length buf
    /\ nth_error buf' written = Some NUL
    /\ skipn (S written) buf' = skipn (S written) buf.
Proof.
  intros Hsize. rewrite (ss_snprintf_value buf size format args Hsize).
  set (kept := firstn (size - 1) (list_ascii_of_string (expansion format args 0))).
  assert (Hk : List.length kept = Nat.min (size - 1) (String.length (expansion format args 0)))
    by (unfold kept; rewrite length_firstn, list_ascii_length; reflexivity).
  rewrite <- Hk. do 2 eexists. split; [reflexivity|].
  split; [lia|]. split; [|split].
  - apply blit_length. rewrite length_app. cbn [List.length]. lia.
  - unfold blit. cbn [firstn app]. rewrite <- app_assoc.
    rewrite nth_error_app2, Nat.sub_diag by lia. reflexivity.
  - unfold blit. cbn [firstn app Nat.add]. rewrite <- app_assoc. cbn [app].
    rewrite length_app. cbn [List.length].
    replace (S (List.length kept)) with (List.length kept + 1)%nat by lia.
    rewrite (skipn_app_exact _ 1 kept _ eq_refl). reflexivity.
Qed.

Lemma ss_snprintf_reads_back (buf : list ascii) (size : nat) (text : string) :
  c_str text = text ->
  data (blit buf 0 (firstn (size - 1) (list_ascii_of_string text) ++ [NUL]))
  = substring 0 (size - 1) text.
Proof.
  intros Htext. unfold blit. cbn [firstn app]. rewrite <- app_assoc. cbn [app].
  rewrite <- (list_ascii_of_string_of_list_ascii (firstn (size - 1) _)), substring_firstn.
  apply data_terminated, c_str_substring, Htext.
Qed.


(** X22: without arguments, or once they are used up, a format is
    copied as it stands: the loop with arguments then takes the same
    steps as the plain copying loop, and a call without arguments stores
    the format's own characters, [%s] included, cut off after
    [size - 1]. *)
Theorem ss_snprintf_literal (buf : list ascii) (size : nat) (format : str) :
  (0 < size <= List.length buf)%nat ->
  (exists buf' : list ascii,
      snprintf (Some buf) size format []
      = Returned (Nat.min (size - 1) (strlen format), Some buf')
      /\ data buf' = substring 0 (size - 1) (c_str format))
  /\ (forall (args : list (option str)) (arg_index : nat) (buffer : list ascii) (pos : nat),
         (List.length args <= arg_index)%nat ->
         format_loop format args arg_index size buffer pos
         = copy_while format size buffer pos).
Proof.
  intros Hsize. split.
  - rewrite (ss_snprintf_value buf size format [] Hsize).
    rewrite expansion_exhausted by (cbn; lia).
    eexists. split; [reflexivity|].
    apply ss_snprintf_reads_back, c_str_idem.
  - intros args arg_index buffer pos Hidx. now apply format_loop_exhausted.
Qed.


End SnprintfFacts.

(* ===================================================================== *)
(** * The further properties at concrete inputs *)
(* ===================================================================== *)

Lemma bitPosition_lowest_set_bit_witness :
  representable (E := Permissions) 6
  /\ 0 <= bitPosition (E := Permissions) 6 < width (Underlying (BitmaskEnum := Permissions))
  /\ Z.testbit 6 (bitPosition (E := Permissions) 6) = true
  /\ 6 mod 2 ^ bitPosition (E := Permissions) 6 = 0.
Proof.
  assert (Hrep : representable (E := Permissions) 6) by (unfold representable; simpl; lia).
  split; [exact Hrep|].
  destruct (bitPosition_lowest_set_bit (E := Permissions) 6 Hrep ltac:(lia))
    as (Hr & Hset & _ & Hmod & _).
  auto.
Defined.

Lemma single_flag_effects_witness :
  Z.testbit (@VALID_MASK Permissions) 1 = true
  /\ has (snd (set (FlagSet_of (E := Permissions) READ) (2 ^ 1))) (2 ^ 0)
     = Returned (has_value ((1 =? 0) || Z.testbit (m_bits (FlagSet_of (E := Permissions) READ)) 0))
  /\ has (snd (clear (FlagSet_of (E := Permissions) READ) (2 ^ 0))) (2 ^ 0)
     = Returned (has_value (negb (0 =? 0)
                            && Z.testbit (m_bits (FlagSet_of (E := Permissions) READ)) 0)).
Proof.
  split; [reflexivity|].
  destruct (single_flag_effects (E := Permissions) (FlagSet_of READ) 1 0)
    as (_ & _ & _ & _ & Hset & _); [lia|lia|reflexivity|reflexivity|].
  destruct (single_flag_effects (E := Permissions) (FlagSet_of READ) 0 0)
    as (_ & _ & _ & _ & _ & Hclear & _); [lia|lia|reflexivity|reflexivity|].
  split; [exact Hset|exact Hclear].
Defined.

Lemma bulk_operations_witness :
  valid (FlagSet_of (E := NetworkFlags) 9)
  /\ toUnderlying (snd (setAll (FlagSet_of (E := NetworkFlags) 9))) = @VALID_MASK NetworkFlags
  /\ snd (toggleAll (FlagSet_of (E := NetworkFlags) 9)) = op_not (FlagSet_of 9)
  /\ snd (toggleAll (snd (toggleAll (FlagSet_of (E := NetworkFlags) 9)))) = FlagSet_of 9.
Proof.
  assert (Hv : valid (FlagSet_of (E := NetworkFlags) 9))
    by (split; [vm_compute; split; [discriminate|reflexivity]|reflexivity]).
  split; [exact Hv|].
  destruct (bulk_operations _ Hv) as (_ & _ & _ & Hall & _ & _ & Hnot & Htwice & _).
  auto.
Defined.

Lemma compound_assignment_agrees_witness :
  valid (FlagSet_of (E := Permissions) READ)
  /\ valid (FlagSet_of (E := Permissions) 6)
  /\ op_or_assign (FlagSet_of (E := Permissions) READ) (FlagSet_of 6)
     = op_or (FlagSet_of READ) (FlagSet_of 6)
  /\ op_xor_assign (FlagSet_of (E := Permissions) READ) (FlagSet_of 6)
     = op_xor (FlagSet_of READ) (FlagSet_of 6).
Proof.
  assert (Ha : valid (FlagSet_of (E := Permissions) READ))
    by (split; [vm_compute; split; [discriminate|reflexivity]|reflexivity]).
  assert (Hb : valid (FlagSet_of (E := Permissions) 6))
    by (split; [vm_compute; split; [discriminate|reflexivity]|reflexivity]).
  split; [exact Ha|]. split; [exact Hb|].
  destruct (compound_assignment_agrees _ _ Ha Hb) as (Hor & _ & Hxor). auto.
Defined.

Lemma conversion_round_trip_witness :
  valid (FlagSet_of (E := FileFlags) 10)
  /\ fromUnderlying (E := FileFlags) (toUnderlying (FlagSet_of (E := FileFlags) 10))
     = FlagSet_of 10
  /\ fromEnum (E := FileFlags) (toEnum (FlagSet_of (E := FileFlags) 10))
     = has_value (FlagSet_of 10).
Proof.
  assert (Hv : valid (FlagSet_of (E := FileFlags) 10))
    by (split; [vm_compute; split; [discriminate|reflexivity]|reflexivity]).
  split; [exact Hv|].
  destruct (conversion_round_trip _ Hv) as (_ & Hraw & _ & Henum & _). auto.
Defined.

Lemma strict_accepts_what_lenient_keeps_witness :
  representable (E := Permissions) 16
  /\ (isValid (E := Permissions) 16 = true
      <-> toUnderlying (fromUnderlying (E := Permissions) 16) = 16)
  /\ (isValid (E := Permissions) 16 = false
      <-> exists e, fromEnum (E := Permissions) 16 = unexpected e).
Proof.
  assert (Hrep : representable (E := Permissions) 16)
    by (unfold representable; simpl; lia).
  split; [exact Hrep|].
  destruct (strict_accepts_what_lenient_keeps (E := Permissions) 16 Hrep) as (H1 & _ & H3).
  auto.
Defined.

Lemma count_any_none_consistent_witness :
  Bitset.wf (@NUM_BITS NetworkFlags) (m_bits (FlagSet_of (E := NetworkFlags) 9))
  /\ (count (FlagSet_of (E := NetworkFlags) 9) = 0
      <-> hasNone (FlagSet_of (E := NetworkFlags) 9) = true)
  /\ count (FlagSet_of (E := NetworkFlags) 9)
     = Z.of_nat (List.length (stored_flags (FlagSet_of (E := NetworkFlags) 9))).
Proof.
  assert (Hwf : Bitset.wf (@NUM_BITS NetworkFlags) (m_bits (FlagSet_of (E := NetworkFlags) 9)))
    by (vm_compute; split; [discriminate|reflexivity]).
  split; [exact Hwf|].
  destruct (count_any_none_consistent _ Hwf) as (H1 & _ & _ & _ & _ & H6). auto.
Defined.

Lemma operators_on_raw_values_witness :
  valid (FlagSet_of (E := NetworkFlags) 9)
  /\ valid (FlagSet_of (E := NetworkFlags) 10)
  /\ toUnderlying (op_or (FlagSet_of (E := NetworkFlags) 9) (FlagSet_of 10))
     = Z.lor (toUnderlying (FlagSet_of (E := NetworkFlags) 9))
             (toUnderlying (FlagSet_of (E := NetworkFlags) 10))
  /\ toUnderlying (op_not (FlagSet_of (E := NetworkFlags) 9))
     = @VALID_MASK NetworkFlags - toUnderlying (FlagSet_of (E := NetworkFlags) 9).
Proof.
  assert (Ha : valid (FlagSet_of (E := NetworkFlags) 9))
    by (split; [vm_compute; split; [discriminate|reflexivity]|reflexivity]).
  assert (Hb : valid (FlagSet_of (E := NetworkFlags) 10))
    by (split; [vm_compute; split; [discriminate|reflexivity]|reflexivity]).
  split; [exact Ha|]. split; [exact Hb|].
  destruct (operators_on_raw_values _ _ Ha Hb) as (Hor & _ & _ & _ & Hnot). auto.
Defined.

Lemma operators_membership_witness :
  valid (FlagSet_of (E := NetworkFlags) 9)
  /\ valid (FlagSet_of (E := NetworkFlags) 10)
  /\ Z.testbit (@VALID_MASK NetworkFlags) 3 = true
  /\ exists x y : bool,
      has (FlagSet_of (E := NetworkFlags) 9) (2 ^ 3) = Returned (has_value x)
      /\ has (FlagSet_of (E := NetworkFlags) 10) (2 ^ 3) = Returned (has_value y)
      /\ has (op_and (FlagSet_of (E := NetworkFlags) 9) (FlagSet_of 10)) (2 ^ 3)
         = Returned (has_value (x && y)).
Proof.
  assert (Ha : valid (FlagSet_of (E := NetworkFlags) 9))
    by (split; [vm_compute; split; [discriminate|reflexivity]|reflexivity]).
  assert (Hb : valid (FlagSet_of (E := NetworkFlags) 10))
    by (split; [vm_compute; split; [discriminate|reflexivity]|reflexivity]).
  split; [exact Ha|]. split; [exact Hb|]. split; [reflexivity|].
  destruct (operators_membership _ _ 3 Ha Hb ltac:(lia) eq_refl)
    as (x & y & Hx & Hy & _ & Hand & _).
  exists x, y. auto.
Defined.

Lemma constructed_contents_witness :
  Z.testbit (@VALID_MASK Permissions) 2 = true
  /\ has (FlagSet_of (E := Permissions) 3) (2 ^ 2) = Returned (has_value (Z.testbit 3 2))
  /\ has (fromUnderlying (E := Permissions) 255) (2 ^ 2)
     = Returned (has_value (Z.testbit 255 2)).
Proof.
  split; [reflexivity|].
  destruct (constructed_contents (E := Permissions) 3 2 ltac:(lia) eq_refl) as (H1 & _).
  destruct (constructed_contents (E := Permissions) 255 2 ltac:(lia) eq_refl) as (_ & H2 & _).
  auto.
Defined.

Lemma iteration_yields_stored_flags_witness :
  (@NUM_BITS NetworkFlags <= INT_BITS - 1
   \/ width (Underlying (BitmaskEnum := NetworkFlags)) <= INT_BITS)
  /\ iterated (FlagSet_of (E := NetworkFlags) 9)
     = Returned (stored_flags (FlagSet_of (E := NetworkFlags) 9))
  /\ StronglySorted Z.lt (stored_flags (FlagSet_of (E := NetworkFlags) 9)).
Proof.
  assert (Hc : @NUM_BITS NetworkFlags <= INT_BITS - 1
               \/ width (Underlying (BitmaskEnum := NetworkFlags)) <= INT_BITS)
    by (left; vm_compute; discriminate).
  split; [exact Hc|].
  destruct (iteration_yields_stored_flags (FlagSet_of (E := NetworkFlags) 9) Hc)
    as (Hi & _ & Hs & _).
  auto.
Defined.

Lemma stored_flags_are_present_witness :
  valid (FlagSet_of (E := NetworkFlags) 9)
  /\ (In (2 ^ 3) (stored_flags (FlagSet_of (E := NetworkFlags) 9))
      <-> has (FlagSet_of (E := NetworkFlags) 9) (2 ^ 3) = Returned (has_value true)).
Proof.
  assert (Ha : valid (FlagSet_of (E := NetworkFlags) 9))
    by (split; [vm_compute; split; [discriminate|reflexivity]|reflexivity]).
  split; [exact Ha|].
  destruct (stored_flags_are_present _ Ha) as (_ & Hiff).
  apply Hiff; [lia|reflexivity].
Defined.

Lemma enum_operators_witness :
  representable (E := FileFlags) 1
  /\ representable (E := FileFlags) 2
  /\ enum_or (E := FileFlags) 1 2 = Z.lor 1 2
  /\ enum_not (E := FileFlags) 1 = 2 ^ width (Underlying (BitmaskEnum := FileFlags)) - 1 - 1
  /\ enum_not (E := FileFlags) (enum_not (E := FileFlags) 1) = 1.
Proof.
  assert (H1 : representable (E := FileFlags) 1) by (unfold representable; simpl; lia).
  assert (H2 : representable (E := FileFlags) 2) by (unfold representable; simpl; lia).
  split; [exact H1|]. split; [exact H2|].
  destruct (enum_operators (E := FileFlags) 1 2 H1 H2)
    as (Hor & _ & Hnot & _ & _ & _ & Htwice & _).
  auto.
Defined.

Lemma ss_snprintf_bounded_witness :
  (0 < 5 <= List.length (repeat "#"%char 10))%nat
  /\ exists (written : nat) (buf' : list ascii),
      Snprintf.snprintf (Some (repeat "#"%char 10)) 5 "a%sb%s%s" [Some "XYZW"; Some "Q"]
      = Returned (written, Some buf')
      /\ (written < 5)%nat
      /\ List.length buf' = List.length (repeat "#"%char 10)
      /\ nth_error buf' written = Some NUL
      /\ skipn (S written) buf' = skipn (S written) (repeat "#"%char 10).
Proof.
  assert (H : (0 < 5 <= List.length (repeat "#"%char 10))%nat) by (simpl; lia).
  split; [exact H|].
  exact (ss_snprintf_bounded (repeat "#"%char 10) 5 "a%sb%s%s" [Some "XYZW"; Some "Q"] H).
Defined.


Lemma ss_snprintf_literal_witness :
  (0 < 10 <= List.length (repeat "#"%char 10))%nat
  /\ exists buf' : list ascii,
      Snprintf.snprintf (Some (repeat "#"%char 10)) 10 "a%sb%" []
      = Returned (Nat.min (10 - 1) (strlen "a%sb%"), Some buf')
      /\ data buf' = substring 0 (10 - 1) (c_str "a%sb%").
Proof.
  assert (H : (0 < 10 <= List.length (repeat "#"%char 10))%nat) by (simpl; lia).
  split; [exact H|].
  exact (proj1 (ss_snprintf_literal (repeat "#"%char 10) 10 "a%sb%" H)).
Defined.


(* ===================================================================== *)
(** * When iteration yields the stored flags *)
(* ===================================================================== *)

Section IterationCondition.
Context {E : BitmaskEnum}.

Lemma wide_sign_extension :
  INT_BITS < width Underlying -> wrap Underlying (to_int (1 * 2 ^ 31)) <> 2 ^ 31.
Proof.
  unfold wrap, INT_BITS. destruct Underlying; cbn [width]; intros H; try lia.
  vm_compute. discriminate.
Qed.

(** [static_cast< Enum >( 1 << i )] is the flag of position [i] exactly
    when [i] is below 31 or the underlying type is no wider than [int]. *)
Lemma flag_at_pow2_iff (i : Z) :
  0 <= i < NUM_BITS ->
  (flag_at i = Returned (2 ^ i) <-> i < INT_BITS - 1 \/ width Underlying <= INT_BITS).
Proof.
  intros Hi. split; [|now apply flag_at_pow2].
  intros Hflag.
  destruct (Z_lt_ge_dec i (INT_BITS - 1)) as [|Hge]; [now left|right].
  destruct (Z_le_gt_dec (width Underlying) INT_BITS) as [|Hwide]; [assumption|exfalso].
  unfold flag_at, int_shl, INT_BITS in *.
  destruct (Z.leb_spec 0 i); [|lia].
  destruct (Z.ltb_spec i 32); cbn [andb bind] in Hflag; [|discriminate].
  assert (i = 31) as -> by lia.
  injection Hflag as Hflag. revert Hflag. apply wide_sign_extension.
  unfold INT_BITS. lia.
Qed.

Lemma fold_flags_collect_inv (self : FlagSet E) (l : list Z) :
  forall seen r,
    fold_flags self collect l seen = Returned r ->
    exists r', r = seen ++ r'
               /\ Forall2 (fun i f => flag_at i = Returned f)
                    (filter (Z.testbit (m_bits self)) l) r'.
Proof.
  induction l as [|i l IH]; intros seen r H; cbn [fold_flags filter] in *.
  - injection H as <-. exists []. split; [now rewrite app_nil_r|constructor].
  - destruct (Z.testbit (m_bits self) i); [|now apply IH].
    destruct (flag_at i) as [flag| | |] eqn:Hflag; cbn [bind] in H; try discriminate.
    apply IH in H as (r' & -> & Hall). exists (flag :: r'). split.
    + unfold collect. now rewrite <- app_assoc.
    + now constructor.
Qed.

Lemma fold_flags_collect_stored (self : FlagSet E) (l : list Z) :
  (forall i, In i l -> Z.testbit (m_bits self) i = true -> flag_at i = Returned (2 ^ i)) ->
  forall seen,
    fold_flags self collect l seen
    = Returned (seen ++ map (fun i => 2 ^ i) (filter (Z.testbit (m_bits self)) l)).
Proof.
  induction l as [|i l IH]; intros Hl seen; cbn [fold_flags filter map].
  - now rewrite app_nil_r.
  - assert (Hl' : forall j, In j l -> Z.testbit (m_bits self) j = true ->
                            flag_at j = Returned (2 ^ j))
      by (intros j Hj; apply Hl; now right).
    destruct (Z.testbit (m_bits self) i) eqn:Hb; [|now apply IH].
    rewrite (Hl i) by (auto; now left). cbn [bind map].
    rewrite IH by assumption. unfold collect. now rewrite <- app_assoc.
Qed.

Lemma Forall2_map_diag {A B : Type} (R : A -> B -> Prop) (f : A -> B) (l : list A) :
  Forall2 R l (map f l) -> forall x, In x l -> R x (f x).
Proof.
  induction l as [|a l IH]; cbn [map]; intros H x Hx; [contradiction|].
  inversion H; subst. destruct Hx as [<-|Hx]; auto.
Qed.

(** X24: iteration (and with it [forEach]) returns the stored
    single-bit flags if and only if every stored position is below 31 or
    the underlying type is no wider than [int]: a flag at position 31 or
    above of a 64-bit enumeration is what makes the traversal go
    wrong. *)
Theorem iteration_exact_condition (self : FlagSet E) :
  (iterated self = Returned (stored_flags self)
   <-> forall i, 0 <= i < NUM_BITS -> Z.testbit (m_bits self) i = true ->
                 i < INT_BITS - 1 \/ width Underlying <= INT_BITS)
  /\ (visited self = Returned (stored_flags self)
      <-> iterated self = Returned (stored_flags self)).
Proof.
  split; [|now rewrite iterated_visited].
  rewrite iterated_visited. unfold visited. rewrite forEach_fold. split.
  - intros H i Hi Hb.
    apply fold_flags_collect_inv in H as (r' & Hr & Hall).
    cbn [app] in Hr. subst r'. unfold stored_flags in Hall.
    apply (flag_at_pow2_iff i Hi).
    apply (Forall2_map_diag _ _ _ Hall).
    apply filter_In. split; [|exact Hb].
    unfold Bitset.positions. apply indices_In. lia.
  - intros H. rewrite fold_flags_collect_stored; [reflexivity|].
    intros i Hi Hb. apply positions_bounds in Hi.
    apply (flag_at_pow2_iff i Hi). now apply H.
Qed.

End IterationCondition.
